(** * MT5 copier bridge: extraction, reconciliation, debounce, publish

    A shallow embedding of [main.py] (class [SignalBridge]) and the
    properties its specification states about it.

    Conventions of the model.
    - A character is a code point below U+0100 (ASCII and Latin-1), a Python
      [str] a [list ascii].  The character classes, the word boundary and
      the case mappings are Python's on these characters.  The capitals of
      the letters U+00B5 and U+00FF lie beyond U+00FF: in [upper] the two
      letters stand for their capitals, which like them are word characters
      outside [A-Z] that no pattern names and no group of a pattern holds.
      The claim about the size of an arbitrary fragment is stated for
      7-bit text, [ascii_text].
    - A Python [float] is the rational number it is: [float] rounds a
      decimal to the nearest double, ties to even, with underflow to [0]
      and overflow to [inf], for which [2^1024] stands.  Sizes are only
      compared and printed, never computed with.
    - [time.time()] and the outcome of the two file operations of
      [_write_signal] are read from an oracle indexed by the number of calls
      made so far. *)

From Stdlib Require Import Ascii String QArith Lqa.
From stdpp Require Import gmap strings list fin_maps.

Local Open Scope list_scope.

(** ** Text *)

Definition str : Type := list ascii.

Definition txt (s : string) : str := list_ascii_of_string s.

Definition code (c : ascii) : nat := nat_of_ascii c.

Definition newline : ascii := ascii_of_nat 10.
Definition dquote : ascii := ascii_of_nat 34.
Definition backslash : ascii := ascii_of_nat 92.

(** Text written with ['] where the program has a double quote. *)
Definition jtxt (s : string) : str :=
  map (fun c => if (nat_of_ascii c =? 39)%nat then dquote else c)
      (list_ascii_of_string s).

Definition in_range (lo hi : nat) (c : ascii) : bool :=
  (lo <=? code c)%nat && (code c <=? hi)%nat.

(** [A-Z] *)
Definition is_AZ (c : ascii) : bool := in_range 65 90 c.
Definition is_az (c : ascii) : bool := in_range 97 122 c.
(** [\d] *)
Definition is_digit (c : ascii) : bool := in_range 48 57 c.
(** [\s], and the blanks of [str.strip()]: the white space of Unicode
    below U+0100 *)
Definition is_space (c : ascii) : bool :=
  in_range 9 13 c || in_range 28 32 c
  || (code c =? 133)%nat || (code c =? 160)%nat.
(** [\w]: [_] and the letters and numbers of Unicode below U+0100 *)
Definition is_word (c : ascii) : bool :=
  is_AZ c || is_az c || is_digit c || (code c =? 95)%nat
  || (code c =? 170)%nat || in_range 178 179 c || (code c =? 181)%nat
  || in_range 185 186 c || in_range 188 190 c
  || in_range 192 214 c || in_range 216 246 c || in_range 248 255 c.


(** The letters with a capital, respectively a small letter, one
    character long and below U+0100. *)
Definition upper_char (c : ascii) : ascii :=
  if is_az c || in_range 224 246 c || in_range 248 254 c
  then ascii_of_nat (code c - 32) else c.
Definition lower_char (c : ascii) : ascii :=
  if is_AZ c || in_range 192 214 c || in_range 216 222 c
  then ascii_of_nat (code c + 32) else c.

(** [c.upper()]: the capital of U+00DF is [SS]. *)
Definition upper_chars (c : ascii) : str :=
  if (code c =? 223)%nat then txt "SS" else [upper_char c].

(** [text.upper()] *)
Definition upper (s : str) : str := flat_map upper_chars s.

Definition ascii_eqb (a b : ascii) : bool := (code a =? code b)%nat.

(** [sep.join(parts)] *)
Fixpoint join (sep : str) (parts : list str) : str :=
  match parts with
  | [] => []
  | [p] => p
  | p :: ps => p ++ sep ++ join sep ps
  end.

(** ** Regular expressions

    The fragment of Python's [re] the three patterns use, with its
    backtracking semantics: alternatives are tried left to right, quantifiers
    are greedy, [search] returns the match at the leftmost start. *)

Inductive regex : Type :=
| Eps
| Chr (p : ascii -> bool)
| Seq (r1 r2 : regex)
| Alt (r1 r2 : regex)
| Rep (p : ascii -> bool) (lo : nat) (hi : option nat)
| Wordb
| Grp (r : regex).

(** [r?] *)
Definition Opt (r : regex) : regex := Alt r Eps.

(** A literal, case-sensitive or (under [re.IGNORECASE]) not. *)
Definition lit_char (ignorecase : bool) (x : ascii) : ascii -> bool :=
  fun c => if ignorecase then ascii_eqb (lower_char c) (lower_char x)
           else ascii_eqb c x.

Fixpoint Lit (ignorecase : bool) (s : str) : regex :=
  match s with
  | [] => Eps
  | [x] => Chr (lit_char ignorecase x)
  | x :: s' => Seq (Chr (lit_char ignorecase x)) (Lit ignorecase s')
  end.

(** The matcher's position: the character before it (for [\b]), the text
    still to read, and group 1 when it has been closed. *)
Record mstate : Type := MS {
  prev : option ascii;
  rest : str;
  cap : option str
}.

Definition word_before (st : mstate) : bool :=
  match prev st with Some c => is_word c | None => false end.
Definition word_after (st : mstate) : bool :=
  match rest st with c :: _ => is_word c | [] => false end.

Definition more_allowed (hi : option nat) : bool :=
  match hi with Some O => false | _ => true end.

Section Matcher.
Context {R : Type}.

(** Greedy [p{lo,hi}]: take a character while allowed, and give it back
    when what follows does not match. *)
Fixpoint m_rep (p : ascii -> bool) (lo : nat) (hi : option nat)
    (pv : option ascii) (s : str) (cp : option str)
    (k : mstate -> option R) : option R :=
  let stop := match lo with O => k (MS pv s cp) | S _ => None end in
  match s with
  | c :: s' =>
      if p c && more_allowed hi then
        match m_rep p (Nat.pred lo) (Nat.pred <$> hi) (Some c) s' cp k with
        | Some r => Some r
        | None => stop
        end
      else stop
  | [] => stop
  end.

Fixpoint m (r : regex) (st : mstate) (k : mstate -> option R) : option R :=
  match r with
  | Eps => k st
  | Chr p =>
      match rest st with
      | c :: s' => if p c then k (MS (Some c) s' (cap st)) else None
      | [] => None
      end
  | Seq r1 r2 => m r1 st (fun st' => m r2 st' k)
  | Alt r1 r2 =>
      match m r1 st k with
      | Some x => Some x
      | None => m r2 st k
      end
  | Rep p lo hi => m_rep p lo hi (prev st) (rest st) (cap st) k
  | Wordb => if xorb (word_before st) (word_after st) then k st else None
  | Grp r' =>
      m r' st (fun st' =>
        k (MS (prev st') (rest st')
              (Some (take (length (rest st) - length (rest st')) (rest st)))))
  end.
End Matcher.

(** [pattern.search(text)]: the match object is the matcher's final state. *)
Fixpoint search_from (r : regex) (pv : option ascii) (s : str) : option mstate :=
  match m r (MS pv s None) Some with
  | Some mo => Some mo
  | None =>
      match s with
      | [] => None
      | c :: s' => search_from r (Some c) s'
      end
  end.

Definition re_search (r : regex) (text : str) : option mstate :=
  search_from r None text.

(** [match.group(1)]; every pattern below closes its group in every match
    (lemmas [SYMBOL_group], [SIDE_group] and [LOT_group]). *)
Definition group1 (mo : mstate) : str := default [] (cap mo).

(** [re.split(r"[...]", text)] for a one-character class. *)
Fixpoint re_split (delim : ascii -> bool) (s : str) : list str :=
  match s with
  | [] => [[]]
  | c :: s' =>
      if delim c then [] :: re_split delim s'
      else match re_split delim s' with
           | t :: ts => (c :: t) :: ts
           | [] => [[c]]
           end
  end.

(** ** The three patterns *)

Definition quote_currencies : list str :=
  map txt ["USD"; "JPY"; "EUR"; "GBP"; "AUD"; "NZD"; "CHF"; "CAD"]%string.

Definition alternatives (ignorecase : bool) (ws : list str) : regex :=
  match ws with
  | [] => Eps
  | w :: ws' => fold_left (fun r w' => Alt r (Lit ignorecase w')) ws' (Lit ignorecase w)
  end.

(** [\b([A-Z]{3,7}(?:USD|JPY|EUR|GBP|AUD|NZD|CHF|CAD)?)\b] *)
Definition SYMBOL_PATTERN : regex :=
  Seq Wordb
    (Seq (Grp (Seq (Rep is_AZ 3 (Some 7))
                   (Opt (alternatives false quote_currencies))))
         Wordb).

(** [(?:lot|volume|vol)?\s*[:=]?\s*(\d+(?:\.\d+)?)], [re.IGNORECASE] *)
Definition is_colon_eq (c : ascii) : bool :=
  (code c =? 58)%nat || (code c =? 61)%nat.
Definition is_dot (c : ascii) : bool := (code c =? 46)%nat.

Definition LOT_label : regex :=
  Opt (alternatives true (map txt ["lot"; "volume"; "vol"]%string)).
Definition LOT_prefix : regex :=
  Seq LOT_label
    (Seq (Rep is_space 0 None)
         (Seq (Opt (Chr is_colon_eq)) (Rep is_space 0 None))).
Definition LOT_number : regex :=
  Grp (Seq (Rep is_digit 1 None)
           (Opt (Seq (Chr is_dot) (Rep is_digit 1 None)))).
Definition LOT_PATTERN : regex := Seq LOT_prefix LOT_number.

(** [\b(BUY|SELL)\b], [re.IGNORECASE] *)
Definition SIDE_PATTERN : regex :=
  Seq Wordb
    (Seq (Grp (alternatives true (map txt ["BUY"; "SELL"]%string))) Wordb).

(** ** Positions *)

(** [float(s)] for [s] of the form [\d+(\.\d+)?]. *)
Definition digit_val (c : ascii) : Z := Z.of_nat (code c) - 48.

Definition int_of_digits (ds : str) : Z :=
  fold_left (fun acc c => 10 * acc + digit_val c)%Z ds 0%Z.

Fixpoint int_part (s : str) : str :=
  match s with
  | [] => []
  | c :: s' => if is_dot c then [] else c :: int_part s'
  end.

Fixpoint frac_part (s : str) : str :=
  match s with
  | [] => []
  | c :: s' => if is_dot c then s' else frac_part s'
  end.

(** Rounding to the nearest, ties to the even neighbour. *)
Definition round_half_even (num den : Z) : Z :=
  let m := (num / den)%Z in
  match (2 * (num mod den) ?= den)%Z with
  | Lt => m
  | Gt => (m + 1)%Z
  | Eq => if Z.even m then m else (m + 1)%Z
  end.

(** [2^e <= n / d] *)
Definition pow2_le (e n d : Z) : bool :=
  if (0 <=? e)%Z then (2 ^ e * d <=? n)%Z else (d <=? n * 2 ^ (- e))%Z.

(** The [e] with [2^e <= n / d < 2^(e+1)], for positive [n] and [d]. *)
Definition binade (n d : Z) : Z :=
  let e0 := (Z.log2 n - Z.log2 d)%Z in
  if pow2_le e0 n d then e0 else (e0 - 1)%Z.

(** The IEEE 754 double nearest to [n / d] (53 significant bits, exponents
    down to the subnormals at [2^-1074]), as the rational it is; [2^1024],
    the first power of two beyond the doubles, stands for [inf]. *)
Definition double_of (n d : Z) : Q :=
  if (n <=? 0)%Z then 0
  else
    let p := Z.max (binade n d - 52) (-1074) in
    if (0 <=? p)%Z then
      let v := (round_half_even n (d * 2 ^ p) * 2 ^ p)%Z in
      if (2 ^ 1024 <=? v)%Z then inject_Z (2 ^ 1024) else inject_Z v
    else Qred (Qmake (round_half_even (n * 2 ^ (- p)) d) (Z.to_pos (2 ^ (- p)))).

Definition float (s : str) : Q :=
  double_of (int_of_digits (int_part s ++ frac_part s))
            (10 ^ Z.of_nat (length (frac_part s))).

Record Position : Type := mkPosition {
  symbol : str;
  side : str;
  lot : Q
}.

Definition _extract_single_record (text : str) : option Position :=
  let symbol_match := re_search SYMBOL_PATTERN (upper text) in
  let side_match := re_search SIDE_PATTERN (upper text) in
  let lot_match := re_search LOT_PATTERN text in
  match symbol_match, side_match, lot_match with
  | Some sm, Some dm, Some lm =>
      let symbol := upper (group1 sm) in
      let side := upper (group1 dm) in
      let lot := float (group1 lm) in
      if Qle_bool lot 0 then None
      else Some (mkPosition symbol side lot)
  | _, _, _ => None
  end.

(** [(symbol, side, lot)], the key of a position in a snapshot *)
Definition key : Type := str * str * Q.

Global Instance Q_eq_dec : EqDecision Q.
Proof. solve_decision. Defined.

Definition position_key (p : Position) : key := (symbol p, side p, lot p).

(** The [seen]/[unique] loop: the first occurrence of each key is kept. *)
Fixpoint unique_from (seen : list key) (records : list Position) : list Position :=
  match records with
  | [] => []
  | r :: rs =>
      let key := position_key r in
      if bool_decide (key ∈ seen) then unique_from seen rs
      else r :: unique_from (key :: seen) rs
  end.

(** [[\n|,;]] *)
Definition is_token_delim (c : ascii) : bool :=
  (code c =? 10)%nat || (code c =? 124)%nat || (code c =? 44)%nat || (code c =? 59)%nat.

(** truth of [t.strip()] *)
Definition nonblank (t : str) : bool := existsb (fun c => negb (is_space c)) t.

Definition tokens_of (texts : list str) : list str :=
  filter (fun t => nonblank t = true) (re_split is_token_delim (join [newline] texts)).

Definition window_text (tokens : list str) (idx : nat) : str :=
  join (txt " ") (take 6 (drop idx tokens)).

Definition _extract_positions_from_texts (texts : list str) : list Position :=
  let line_records := omap _extract_single_record texts in
  let tokens := tokens_of texts in
  let window_records :=
    omap (fun idx => _extract_single_record (window_text tokens idx))
         (seq 0 (length tokens)) in
  unique_from [] (line_records ++ window_records).

(** ** [collections.Counter]

    A [dict] keeps its keys in insertion order, and iteration follows it:
    a counter is the list of its items. *)
Section Counter.
Context {K : Type} `{EqDecision K}.

Definition Counter : Type := list (K * Z).

(** [c[k]], [0] for a missing key *)
Fixpoint Counter_get (c : Counter) (k : K) : Z :=
  match c with
  | [] => 0
  | (k', n) :: c' => if decide (k' = k) then n else Counter_get c' k
  end.

(** [k in c] *)
Definition Counter_mem (c : Counter) (k : K) : bool :=
  bool_decide (k ∈ c.*1).

(** [c[k] = v]: in place for a key already there, appended otherwise *)
Fixpoint Counter_set (k : K) (v : Z) (c : Counter) : Counter :=
  match c with
  | [] => [(k, v)]
  | (k', n) :: c' =>
      if decide (k' = k) then (k', v) :: c' else (k', n) :: Counter_set k v c'
  end.

(** [Counter(iterable)] *)
Definition Counter_of (elems : list K) : Counter :=
  fold_left (fun c k => Counter_set k (Counter_get c k + 1) c) elems [].

(** [a - b] ([Counter.__sub__]): the positive differences in the order of
    [a], then what [b] counts negatively and [a] does not have. *)
Definition Counter_sub (a b : Counter) : Counter :=
  let result :=
    fold_left (fun res '(elem, count) =>
                 let newcount := (count - Counter_get b elem)%Z in
                 if (0 <? newcount)%Z then Counter_set elem newcount res else res)
              a [] in
  fold_left (fun res '(elem, count) =>
               if negb (Counter_mem a elem) && (count <? 0)%Z
               then Counter_set elem (0 - count)%Z res else res)
            b result.

(** A counter as the code builds it: distinct keys, positive counts. *)
Definition Counter_wf (c : Counter) : Prop :=
  NoDup c.*1 ∧ Forall (fun kc => (0 < kc.2)%Z) c.

(** The keys in the order the two nested loops of [_emit_deltas] visit
    them: [for k, count in c.items(): for _ in range(count)]. *)
Definition units (c : Counter) : list K :=
  flat_map (fun '(k, count) => replicate (Z.to_nat count) k) c.
End Counter.

Arguments Counter K : clear implicits.

(** ** JSON *)

Inductive jvalue : Type :=
| JStr (s : str)
| JNum (q : Q).

(** A [dict] literal with string keys *)
Definition payload : Type := list (str * jvalue).

Definition hex_digit (n : nat) : ascii :=
  if (n <? 10)%nat then ascii_of_nat (48 + n) else ascii_of_nat (87 + n).

(** One character of a JSON string under [ensure_ascii=True]. *)
Definition json_escape_char (c : ascii) : str :=
  let n := code c in
  if (n =? 34)%nat then [backslash; dquote]
  else if (n =? 92)%nat then [backslash; backslash]
  else if (n =? 10)%nat then backslash :: txt "n"
  else if (n =? 13)%nat then backslash :: txt "r"
  else if (n =? 9)%nat then backslash :: txt "t"
  else if (n =? 8)%nat then backslash :: txt "b"
  else if (n =? 12)%nat then backslash :: txt "f"
  else if in_range 32 126 c then [c]
  else backslash :: txt "u00" ++ [hex_digit (n / 16); hex_digit (n mod 16)].

Definition json_string (s : str) : str :=
  [dquote] ++ flat_map json_escape_char s ++ [dquote].

(** [a < b] on strings: lexicographic on character codes *)
Fixpoint str_ltb (a b : str) : bool :=
  match a, b with
  | _, [] => false
  | [], _ :: _ => true
  | x :: a', y :: b' =>
      if (code x <? code y)%nat then true
      else if (code y <? code x)%nat then false
      else str_ltb a' b'
  end.

(** [sorted(d.items())] on distinct keys, by insertion *)
Fixpoint insert_sorted (kv : str * jvalue) (d : payload) : payload :=
  match d with
  | [] => [kv]
  | kv' :: d' =>
      if str_ltb kv.1 kv'.1 then kv :: d else kv' :: insert_sorted kv d'
  end.

Definition sorted_items (d : payload) : payload := foldr insert_sorted [] d.

(** ** The bridge *)

(** What the two file operations of one publish can do: [write_text] may
    fail before creating the temporary file or after writing part of it,
    [os.replace] may fail, or both succeed. *)
Inductive io_outcome : Type :=
| IoOk
| OpenRaises
| WriteRaises (written : nat)
| ReplaceRaises.

Record SignalBridge : Type := mkBridge {
  prev_positions : Counter key;
  recent_signals : gmap str Q;
  (** contents of [signal.tmp] and [signal.json], [None] when absent *)
  tmp_file : option str;
  signal_file : option str;
  (** history: every content [os.replace] has installed, oldest first *)
  published : list str;
  (** history: the number of calls of [_write_signal] so far *)
  calls : nat
}.

(** A call returns or raises; either way the object keeps what the call
    did to it. *)
Inductive outcome : Type :=
| Returned (st : SignalBridge)
| Raised (st : SignalBridge).

Definition state_of (o : outcome) : SignalBridge :=
  match o with Returned st | Raised st => st end.

Definition action : Type := SignalBridge -> outcome.

Definition and_then (a b : action) : action :=
  fun st => match a st with
            | Returned st' => b st'
            | Raised st' => Raised st'
            end.

Declare Scope action_scope.
Delimit Scope action_scope with action.
Bind Scope action_scope with action.
Notation "a ;; b" := (and_then a b)
  (at level 100, b at level 200, right associativity) : action_scope.

Definition skip : action := Returned.

(** [for x in xs: body(x)] *)
Fixpoint for_each {A : Type} (xs : list A) (body : A -> action) : action :=
  match xs with
  | [] => skip
  | x :: xs' => (body x ;; for_each xs' body)%action
  end.

(** [for _ in range(n): body] *)
Definition for_range (n : Z) (body : action) : action :=
  for_each (replicate (Z.to_nat n) tt) (fun _ => body).

Definition recent_ttl_seconds : Q := 5.

(** [now - ts <= self.recent_ttl_seconds] *)
Definition fresh (now : Q) (entry : str * Q) : Prop :=
  Qle_bool (now - entry.2) recent_ttl_seconds = true.

Global Instance fresh_dec now entry : Decision (fresh now entry).
Proof. unfold fresh. apply _. Defined.

(** [{sig: ts for sig, ts in recent.items() if now - ts <= ttl}] *)
Definition evict (now : Q) (recent : gmap str Q) : gmap str Q :=
  filter (fresh now) recent.

Definition open_payload (k : key) : payload :=
  let '(symbol, side, lot) := k in
  [(txt "action", JStr (txt "OPEN")); (txt "symbol", JStr symbol);
   (txt "side", JStr side); (txt "lot", JNum lot)].

Definition close_payload (k : key) : payload :=
  let '(symbol, _, _) := k in
  [(txt "action", JStr (txt "CLOSE")); (txt "symbol", JStr symbol)].

(** The candidate events of one reconciliation, in the order in which
    [_emit_deltas] hands them to [_write_signal]. *)
Definition open_units (previous current : Counter key) : list key :=
  units (Counter_sub current previous).
Definition close_units (previous current : Counter key) : list key :=
  units (Counter_sub previous current).
Definition open_events (previous current : Counter key) : list payload :=
  open_payload <$> open_units previous current.
Definition close_events (previous current : Counter key) : list payload :=
  close_payload <$> close_units previous current.

(** How often [k] occurs in a list of keys. *)
Definition occurrences {K : Type} `{EqDecision K} (ks : list K) (k : K) : nat :=
  count_occ (fun x y => decide (x = y)) ks k.

(** Two counters that hold the same multiset ([Counter.__eq__]). *)
Definition same_counts {K : Type} `{EqDecision K} (a b : Counter K) : Prop :=
  ∀ k, Counter_get a k = Counter_get b k.

(** One polling cycle's capture: the texts of the UI dump and the lines of
    the screenshot fallback, [None] where obtaining them raises. *)
Record capture : Type := mkCapture {
  ui_dump : option (list str);
  ocr_lines : option (list str)
}.

Section Bridge.
(** [float.__repr__], as [json.dumps] writes a float *)
Variable float_repr : Q -> str.
(** [time.time()] and the fate of the file operations at the [n]-th call
    of [_write_signal] *)
Variable clock : nat -> Q.
Variable io : nat -> io_outcome.

Definition json_value (v : jvalue) : str :=
  match v with
  | JStr s => json_string s
  | JNum q => float_repr q
  end.

(** [json.dumps(d, sort_keys=..., separators=(item_sep, key_sep))] *)
Definition json_dumps (sort_keys : bool) (item_sep key_sep : str) (d : payload) : str :=
  txt "{"
  ++ join item_sep
       (map (fun kv => json_string kv.1 ++ key_sep ++ json_value kv.2)
            (if sort_keys then sorted_items d else d))
  ++ txt "}".

(** [json.dumps(payload, sort_keys=True)] *)
Definition signature_of (p : payload) : str :=
  json_dumps true (txt ", ") (txt ": ") p.

(** [json.dumps(payload, separators=(",", ":"))] *)
Definition compact (p : payload) : str :=
  json_dumps false (txt ",") (txt ":") p.


Definition _write_signal (p : payload) : action := fun st =>
  let signature := signature_of p in
  let now := clock (calls st) in
  let recent := evict now (recent_signals st) in
  let st1 := mkBridge (prev_positions st) recent (tmp_file st) (signal_file st)
                      (published st) (S (calls st)) in
  if bool_decide (is_Some (recent !! signature)) then Returned st1
  else
    let data := compact p in
    match io (calls st) with
    | OpenRaises => Raised st1
    | WriteRaises n =>
        Raised (mkBridge (prev_positions st) recent (Some (take n data))
                         (signal_file st) (published st) (S (calls st)))
    | ReplaceRaises =>
        Raised (mkBridge (prev_positions st) recent (Some data)
                         (signal_file st) (published st) (S (calls st)))
    | IoOk =>
        Returned (mkBridge (prev_positions st) (<[signature := now]> recent)
                           None (Some data) (published st ++ [data])
                           (S (calls st)))
    end.

Definition set_prev_positions (current : Counter key) : action := fun st =>
  Returned (mkBridge current (recent_signals st) (tmp_file st)
                     (signal_file st) (published st) (calls st)).

(** The body of the outer loops of [_emit_deltas]: one call per unit of
    the item's count, each with the event [event_of] makes of the key. *)
Definition emit_units (event_of : key -> payload) (item : key * Z) : action :=
  let '(k, count) := item in
  for_range count (_write_signal (event_of k)).

Definition _emit_deltas (current : Counter key) : action := fun st =>
  let opens := Counter_sub current (prev_positions st) in
  let closes := Counter_sub (prev_positions st) current in
  (for_each opens (emit_units open_payload) ;;
   for_each closes (emit_units close_payload) ;;
   set_prev_positions current)%action st.

Definition _read_live_positions (c : capture) : option (Counter key) :=
  chunks ← ui_dump c;
  match _extract_positions_from_texts chunks with
  | [] =>
      lines ← ocr_lines c;
      Some (Counter_of (position_key <$> _extract_positions_from_texts lines))
  | positions => Some (Counter_of (position_key <$> positions))
  end.

(** The body of the [while True] loop of [run]: an exception ends the
    cycle and is logged, the object stays as the cycle left it. *)
Definition poll_cycle (c : capture) (st : SignalBridge) : SignalBridge :=
  match _read_live_positions c with
  | None => st
  | Some current_positions => state_of (_emit_deltas current_positions st)
  end.
End Bridge.

(** * Vocabulary of the statements *)

(** The positive differences [a[k] - b[k]], in the order of [a]. *)
Definition pos_diff {K : Type} `{EqDecision K} (a b : Counter K) : Counter K :=
  omap (fun kc => let n := (kc.2 - Counter_get b kc.1)%Z in
                  if (0 <? n)%Z then Some (kc.1, n) else None) a.

Definition all_ascii : list ascii := map ascii_of_nat (seq 0 256).

(** What a successful match of [r] from [st] to [st'] has read. *)
Fixpoint steps (r : regex) (st st' : mstate) : Prop :=
  match r with
  | Eps => st' = st
  | Chr p =>
      ∃ c, rest st = c :: rest st' ∧ p c = true ∧ cap st' = cap st
  | Seq r1 r2 => ∃ mid, steps r1 st mid ∧ steps r2 mid st'
  | Alt r1 r2 => steps r1 st st' ∨ steps r2 st st'
  | Rep p lo hi =>
      ∃ w, rest st = w ++ rest st' ∧ Forall (fun c => p c = true) w
           ∧ (lo ≤ length w)%nat ∧ (∀ h, hi = Some h → (length w ≤ h)%nat)
           ∧ cap st' = cap st
  | Wordb => st' = st ∧ xorb (word_before st) (word_after st) = true
  | Grp r' =>
      ∃ mid, steps r' st mid
             ∧ st' = MS (prev mid) (rest mid)
                        (Some (take (length (rest st) - length (rest mid)) (rest st)))
  end.

Fixpoint take_digits (s : str) : str :=
  match s with
  | c :: s' => if is_digit c then c :: take_digits s' else []
  | [] => []
  end.

Fixpoint drop_digits (s : str) : str :=
  match s with
  | c :: s' => if is_digit c then drop_digits s' else s
  | [] => []
  end.

Definition starts_with_digit (s : str) : bool :=
  match s with c :: _ => is_digit c | [] => false end.

(** The longest prefix of the form [\d+(\.\d+)?] of a text that starts
    with a digit. *)
Definition leading_number (s : str) : str :=
  match drop_digits s with
  | c :: s' =>
      if is_dot c && starts_with_digit s'
      then take_digits s ++ c :: take_digits s'
      else take_digits s
  | [] => take_digits s
  end.

(** The leftmost decimal of a text: the number that starts at its first
    digit, whatever stands before it. *)
Fixpoint first_number (s : str) : option str :=
  match s with
  | [] => None
  | c :: s' => if is_digit c then Some (leading_number s) else first_number s'
  end.

(** The character before the position reached by reading [w]. *)
Fixpoint prev_after (pv : option ascii) (w : str) : option ascii :=
  match w with
  | [] => pv
  | c :: w' => prev_after (Some c) w'
  end.

(** Every extracted record has side [BUY] or [SELL] and a positive size. *)
Definition well_sided (k : key) : Prop :=
  (k.1.2 = txt "BUY" ∨ k.1.2 = txt "SELL") ∧ (0 < k.2)%Q.

(** * Sample data *)

Definition eurusd_buy_1 : key := (txt "EURUSD", txt "BUY", 1%Q).
Definition gbpusd_sell_2 : key := (txt "GBPUSD", txt "SELL", 2%Q).

Definition split_fragments : list str := [txt "GBPUSD"; txt "SELL"; txt "lot: 2"].

Definition gbpusd_sell_2_position : Position :=
  mkPosition (txt "GBPUSD") (txt "SELL") 2.

(** A bridge that has just been constructed. *)
Definition new_bridge : SignalBridge := mkBridge [] ∅ None None [] 0.

(** [repr] of the sizes the samples use. *)
Definition sample_repr (q : Q) : str :=
  if Qeq_bool q 1 then txt "1.0" else txt "2.0".

(** A clock that advances by [step] seconds from one call to the next. *)
Definition clock_by (step : Q) (n : nat) : Q := (inject_Z (Z.of_nat n) * step)%Q.

Definition io_ok (n : nat) : io_outcome := IoOk.

(** The replace of the first call fails, later calls succeed. *)
Definition io_first_replace_fails (n : nat) : io_outcome :=
  match n with O => ReplaceRaises | S _ => IoOk end.

Definition close_eurusd : payload := close_payload eurusd_buy_1.

Definition one_eurusd_capture : capture :=
  mkCapture (Some [txt "EURUSD BUY lot:1.0"]) None.

Definition holding_gbpusd : SignalBridge :=
  mkBridge (Counter_of [gbpusd_sell_2]) ∅ None None [] 0.

(** A bridge at its eleventh call, whose cache holds an entry of second 0
    and the Close record of second 7. *)
Definition stale_cache_bridge : SignalBridge :=
  mkBridge [] {[ txt "old" := 0%Q; signature_of sample_repr close_eurusd := 7%Q ]}
           None None [] 10.

(** The replace of the second call fails, the other calls succeed. *)
Definition io_second_replace_fails (n : nat) : io_outcome :=
  match n with 1%nat => ReplaceRaises | _ => IoOk end.

(** * Properties *)

(** ** Counters *)
Section CounterFacts.
Context {K : Type} `{EqDecision K}.
Implicit Types (a b c : Counter K) (k : K).

Lemma Counter_set_fresh k v c : k ∉ c.*1 → Counter_set k v c = c ++ [(k, v)].
Proof.
  induction c as [|[k' n] c IH]; simpl; [done|].
  intros [Hne Hk]%not_elem_of_cons.
  destruct (decide (k' = k)); [congruence|]. by rewrite IH.
Qed.

Lemma Counter_get_absent c k : k ∉ c.*1 → Counter_get c k = 0%Z.
Proof.
  induction c as [|[k' n] c IH]; simpl; [done|].
  intros [Hne Hk]%not_elem_of_cons.
  destruct (decide (k' = k)); [congruence|]. by apply IH.
Qed.

Lemma Counter_get_nonneg c k :
  Forall (fun kc => (0 <= kc.2)%Z) c → (0 <= Counter_get c k)%Z.
Proof.
  induction 1 as [|[k' n] c Hn _ IH]; simpl in *; [lia|].
  destruct (decide (k' = k)); lia.
Qed.

Lemma pos_diff_keys a b k : k ∈ (pos_diff a b).*1 → k ∈ a.*1.
Proof.
  unfold pos_diff. induction a as [|[k' n] a IH]; simpl; [done|].
  destruct (0 <? n - Counter_get b k')%Z; simpl.
  - rewrite !elem_of_cons. intros [->|Hin]; [by left|right; by apply IH].
  - rewrite elem_of_cons. intros Hin. right. by apply IH.
Qed.

Lemma pos_diff_NoDup a b : NoDup a.*1 → NoDup (pos_diff a b).*1.
Proof.
  unfold pos_diff. induction a as [|[k' n] a IH]; simpl; [constructor|].
  intros Hnd. apply NoDup_cons in Hnd as [Hk Hnd].
  destruct (0 <? n - Counter_get b k')%Z; simpl; [|by apply IH].
  apply NoDup_cons. split; [|by apply IH].
  intros Hin. by apply Hk, (pos_diff_keys a b).
Qed.

Lemma pos_diff_positive a b : Forall (fun kc => (0 < kc.2)%Z) (pos_diff a b).
Proof.
  unfold pos_diff. induction a as [|[k' n] a IH]; simpl; [constructor|].
  destruct (0 <? n - Counter_get b k')%Z eqn:E; [|done].
  constructor; [|done]. simpl. by apply Z.ltb_lt.
Qed.

(** The first loop of [__sub__] appends, since the keys of a dict are
    distinct. *)
Lemma sub_first_loop a b res :
  NoDup a.*1 → (∀ k, k ∈ a.*1 → k ∉ res.*1) →
  fold_left (fun res '(elem, count) =>
               let newcount := (count - Counter_get b elem)%Z in
               if (0 <? newcount)%Z then Counter_set elem newcount res else res)
            a res
  = res ++ pos_diff a b.
Proof.
  unfold pos_diff. revert res.
  induction a as [|[k' n] a IH]; intros res Hnd Hdisj; simpl.
  { by rewrite app_nil_r. }
  apply NoDup_cons in Hnd as [Hk Hnd].
  destruct (0 <? n - Counter_get b k')%Z eqn:E.
  - rewrite Counter_set_fresh by (apply Hdisj; simpl; left).
    rewrite IH; [by rewrite <- app_assoc|done|].
    intros k Hin. rewrite fmap_app, elem_of_app. simpl.
    rewrite list_elem_of_singleton.
    intros [Hres| ->]; [|done].
    revert Hres. apply Hdisj. simpl. by right.
  - apply IH; [done|]. intros k Hin. apply Hdisj. simpl. by right.
Qed.

(** The second loop of [__sub__] does nothing when [b] counts nothing
    negatively. *)
Lemma sub_second_loop a b res :
  Forall (fun kc => (0 <= kc.2)%Z) b →
  fold_left (fun res '(elem, count) =>
               if negb (Counter_mem a elem) && (count <? 0)%Z
               then Counter_set elem (0 - count)%Z res else res)
            b res
  = res.
Proof.
  intros Hb. revert res.
  induction Hb as [|[k' n] b Hn _ IH]; intros res; simpl in *; [done|].
  replace (n <? 0)%Z with false by (symmetry; apply Z.ltb_ge; lia).
  rewrite andb_false_r. apply IH.
Qed.

Lemma Counter_sub_pos_diff a b :
  NoDup a.*1 → Forall (fun kc => (0 <= kc.2)%Z) b →
  Counter_sub a b = pos_diff a b.
Proof.
  intros Ha Hb. unfold Counter_sub.
  rewrite sub_first_loop; [|done|intros k _; simpl; apply not_elem_of_nil].
  by rewrite sub_second_loop.
Qed.

Lemma Counter_wf_nonneg c : Counter_wf c → Forall (fun kc => (0 <= kc.2)%Z) c.
Proof. intros [_ Hc]. eapply Forall_impl; [exact Hc|]. simpl. lia. Qed.

Lemma Counter_sub_wf a b : Counter_wf a → Counter_wf b → Counter_wf (Counter_sub a b).
Proof.
  intros Ha Hb. rewrite Counter_sub_pos_diff; [|apply Ha|by apply Counter_wf_nonneg].
  split; [apply pos_diff_NoDup, Ha|apply pos_diff_positive].
Qed.

Lemma pos_diff_get a b k :
  NoDup a.*1 → Forall (fun kc => (0 <= kc.2)%Z) b →
  Counter_get (pos_diff a b) k = Z.max 0 (Counter_get a k - Counter_get b k).
Proof.
  intros Ha Hb. unfold pos_diff.
  induction a as [|[k' n] a IH]; simpl.
  { pose proof (Counter_get_nonneg b k Hb). lia. }
  apply NoDup_cons in Ha as [Hk Ha].
  destruct (decide (k' = k)) as [->|Hne].
  - destruct (0 <? n - Counter_get b k)%Z eqn:E; simpl.
    + rewrite decide_True by done. apply Z.ltb_lt in E. lia.
    + apply Z.ltb_ge in E.
      rewrite (Counter_get_absent _ k).
      * lia.
      * intros Hin. by apply Hk, (pos_diff_keys a b).
  - destruct (0 <? n - Counter_get b k')%Z; simpl.
    + rewrite decide_False by done. by apply IH.
    + by apply IH.
Qed.

(** Each key is visited as many times as it counts. *)
Lemma occurrences_replicate k k' n :
  occurrences (replicate n k') k = if decide (k' = k) then n else 0%nat.
Proof.
  unfold occurrences. induction n as [|n IH]; simpl.
  - by destruct (decide (k' = k)).
  - rewrite IH. by destruct (decide (k' = k)).
Qed.

Lemma occurrences_units_absent c k : k ∉ c.*1 → occurrences (units c) k = 0%nat.
Proof.
  unfold units, occurrences.
  induction c as [|[k' n] c IH]; simpl; [done|].
  intros [Hne Hk]%not_elem_of_cons.
  rewrite count_occ_app. fold (occurrences (replicate (Z.to_nat n) k') k).
  rewrite occurrences_replicate, decide_False by done. by rewrite IH.
Qed.

Lemma occurrences_units c k :
  NoDup c.*1 → Forall (fun kc => (0 <= kc.2)%Z) c →
  Z.of_nat (occurrences (units c) k) = Counter_get c k.
Proof.
  intros Hnd Hc.
  induction c as [|[k' n] c IH]; simpl in *; [done|].
  apply NoDup_cons in Hnd as [Hk Hnd].
  apply Forall_cons in Hc as [Hn Hc]. simpl in Hn.
  unfold occurrences, units in *. simpl. rewrite count_occ_app.
  fold (occurrences (replicate (Z.to_nat n) k') k).
  rewrite occurrences_replicate.
  destruct (decide (k' = k)) as [->|Hne].
  - fold (units c). fold (occurrences (units c) k).
    rewrite occurrences_units_absent by done. lia.
  - simpl. by apply IH.
Qed.

Lemma pos_diff_ext a b b' : same_counts b b' → pos_diff a b = pos_diff a b'.
Proof.
  intros Hbb. unfold pos_diff.
  induction a as [|[k n] a IH]; simpl; [done|].
  rewrite (Hbb k).
  destruct (0 <? n - Counter_get b' k)%Z; [f_equal|]; apply IH.
Qed.

Lemma Counter_set_keys k v c :
  (Counter_set k v c).*1 = if decide (k ∈ c.*1) then c.*1 else c.*1 ++ [k].
Proof.
  induction c as [|[k' n] c IH]; csimpl; [done|].
  destruct (decide (k' = k)) as [->|Hne]; csimpl.
  - rewrite decide_True; [done|by left].
  - rewrite IH. destruct (decide (k ∈ c.*1)) as [Hin|Hin].
    + rewrite decide_True; [done|by right].
    + rewrite decide_False; [done|].
      intros [?|?]%elem_of_cons; congruence.
Qed.

Lemma Counter_set_wf k v c : (0 < v)%Z → Counter_wf c → Counter_wf (Counter_set k v c).
Proof.
  intros Hv [Hnd Hpos]. split.
  - rewrite Counter_set_keys. destruct (decide (k ∈ c.*1)); [done|].
    apply NoDup_app. split_and!; [done| |apply NoDup_singleton].
    intros x Hx Hk%list_elem_of_singleton. by subst.
  - clear Hnd. induction Hpos as [|[k' n] c Hn Hc IH]; simpl.
    + by repeat constructor.
    + destruct (decide (k' = k)); constructor; done.
Qed.

Lemma Counter_of_acc_wf (elems : list K) c :
  Counter_wf c →
  Counter_wf (fold_left (fun c k => Counter_set k (Counter_get c k + 1) c) elems c).
Proof.
  revert c. induction elems as [|k elems IH]; intros c Hc; simpl; [done|].
  apply IH, Counter_set_wf; [|done].
  pose proof (Counter_get_nonneg c k (Counter_wf_nonneg c Hc)). lia.
Qed.

(** [Counter(iterable)] is a multiset: distinct keys, positive counts. *)
Lemma Counter_of_wf (elems : list K) : Counter_wf (Counter_of elems).
Proof. apply Counter_of_acc_wf. split; constructor. Qed.

Lemma Counter_of_acc_keys (elems : list K) c k :
  k ∈ (fold_left (fun c k => Counter_set k (Counter_get c k + 1) c) elems c).*1 →
  k ∈ c.*1 ∨ k ∈ elems.
Proof.
  revert c. induction elems as [|k' elems IH]; intros c; simpl; [by left|].
  intros [Hin|Hin]%IH; [|right; by right].
  rewrite Counter_set_keys in Hin. destruct (decide (k' ∈ c.*1)); [by left|].
  apply elem_of_app in Hin as [?|Hx%list_elem_of_singleton]; [by left|].
  subst. right. by left.
Qed.

Lemma Counter_of_keys (elems : list K) k : k ∈ (Counter_of elems).*1 → k ∈ elems.
Proof.
  intros [Hin|Hin]%Counter_of_acc_keys; [|done].
  by apply elem_of_nil in Hin.
Qed.

End CounterFacts.

(** ** Reconciliation *)

Lemma unit_counts (a b : Counter key) (k : key) :
  Counter_wf a → Counter_wf b →
  Z.of_nat (occurrences (units (Counter_sub a b)) k)
  = Z.max 0 (Counter_get a k - Counter_get b k).
Proof.
  intros Ha Hb.
  rewrite occurrences_units.
  - rewrite Counter_sub_pos_diff; [|apply Ha|by apply Counter_wf_nonneg].
    apply pos_diff_get; [apply Ha|by apply Counter_wf_nonneg].
  - apply Counter_sub_wf; done.
  - apply Counter_wf_nonneg, Counter_sub_wf; done.
Qed.

Section Loops.
Variable float_repr : Q -> str.
Variable clock : nat -> Q.
Variable io : nat -> io_outcome.

Local Abbreviation write := (_write_signal float_repr clock io).

Lemma for_each_app {A} (xs ys : list A) (body : A -> action) st :
  for_each (xs ++ ys) body st = (for_each xs body ;; for_each ys body)%action st.
Proof.
  revert st. induction xs as [|x xs IH]; intros st; simpl; [done|].
  unfold and_then. destruct (body x st); [apply IH|done].
Qed.

Lemma for_each_fmap {A B} (f : A -> B) (xs : list A) (body : B -> action) st :
  for_each (f <$> xs) body st = for_each xs (fun x => body (f x)) st.
Proof.
  revert st. induction xs as [|x xs IH]; intros st; simpl; [done|].
  unfold and_then. destruct (body (f x) st); [apply IH|done].
Qed.

Lemma for_range_replicate (n : Z) (k : key) (body : key -> action) st :
  for_range n (body k) st = for_each (replicate (Z.to_nat n) k) body st.
Proof.
  unfold for_range. revert st.
  induction (Z.to_nat n) as [|j IH]; intros st; simpl; [done|].
  unfold and_then. destruct (body k st); [apply IH|done].
Qed.

(** The two nested loops run the body once per unit, in order. *)
Lemma nested_loops_units (c : Counter key) (body : key -> action) st :
  for_each c (fun '(k, count) => for_range count (body k)) st
  = for_each (units c) body st.
Proof.
  unfold units. revert st.
  induction c as [|[k n] c IH]; intros st; simpl; [done|].
  rewrite for_each_app. unfold and_then.
  rewrite for_range_replicate.
  destruct (for_each (replicate (Z.to_nat n) k) body st); [apply IH|done].
Qed.

(** [_emit_deltas] hands the open events, then the close events, to
    [_write_signal], and only then stores the snapshot. *)
Lemma emit_deltas_events (current : Counter key) st :
  _emit_deltas float_repr clock io current st
  = (for_each (open_events (prev_positions st) current) write ;;
     for_each (close_events (prev_positions st) current) write ;;
     set_prev_positions current)%action st.
Proof.
  unfold _emit_deltas, open_events, close_events, open_units, close_units, and_then.
  rewrite for_each_fmap.
  rewrite <- (nested_loops_units _ (fun k => write (open_payload k))).
  destruct (for_each _ _ st) as [st1|st1]; [|done].
  rewrite for_each_fmap.
  by rewrite <- (nested_loops_units _ (fun k => write (close_payload k))).
Qed.
End Loops.

(** C1. For multisets [A] (previous) and [B] (current), reconciliation
    hands to the write path the open events of [open_units A B] followed by
    the close events of [close_units A B]; every key [k] occurs exactly
    [max 0 (B[k] - A[k])] times among the former, each time as an Open event
    carrying [k]'s symbol, side and size, and exactly [max 0 (A[k] - B[k])]
    times among the latter; adding the opens to [A]'s count of [k] and
    taking the closes away gives [B]'s count. *)
Theorem reconcile_unit_counts
    (float_repr : Q -> str) (clock : nat -> Q) (io : nat -> io_outcome)
    (st : SignalBridge) (B : Counter key) (k : key) :
  Counter_wf (prev_positions st) → Counter_wf B →
  let A := prev_positions st in
  let opens := occurrences (open_units A B) k in
  let closes := occurrences (close_units A B) k in
  _emit_deltas float_repr clock io B st
  = (for_each (open_payload <$> open_units A B) (_write_signal float_repr clock io) ;;
     for_each (close_payload <$> close_units A B) (_write_signal float_repr clock io) ;;
     set_prev_positions B)%action st
  ∧ Z.of_nat opens = Z.max 0 (Counter_get B k - Counter_get A k)
  ∧ Z.of_nat closes = Z.max 0 (Counter_get A k - Counter_get B k)
  ∧ open_payload k
    = [(txt "action", JStr (txt "OPEN")); (txt "symbol", JStr k.1.1);
       (txt "side", JStr k.1.2); (txt "lot", JNum k.2)]
  ∧ (Counter_get A k + Z.of_nat opens - Z.of_nat closes)%Z = Counter_get B k.
Proof.
  intros HA HB A opens closes.
  assert (Z.of_nat opens = Z.max 0 (Counter_get B k - Counter_get A k)) as Ho
    by (by apply unit_counts).
  assert (Z.of_nat closes = Z.max 0 (Counter_get A k - Counter_get B k)) as Hc
    by (by apply unit_counts).
  split_and!; [apply emit_deltas_events|done|done| |lia].
  by destruct k as [[? ?] ?].
Qed.

Lemma same_counts_same_items (c c' : Counter key) :
  NoDup c.*1 → NoDup c'.*1 → c.*1 = c'.*1 → same_counts c c' → c = c'.
Proof.
  revert c'. induction c as [|[k n] c IH]; intros [|[k' n'] c']; csimpl; try done.
  intros [Hk Hnd]%NoDup_cons [Hk' Hnd']%NoDup_cons [= <- Hkeys] Hsame.
  pose proof (Hsame k) as Hn. simpl in Hn. rewrite !decide_True in Hn by done.
  subst n'. f_equal. apply IH; try done.
  intros k2. pose proof (Hsame k2) as H2. simpl in H2.
  destruct (decide (k = k2)) as [->|Hne]; [|done].
  by rewrite !Counter_get_absent.
Qed.

Lemma same_occurrences_perm (l l' : list key) :
  (∀ k, occurrences l k = occurrences l' k) → l ≡ₚ l'.
Proof. intros Hocc. by apply (Permutation_count_occ (fun x y => decide (x = y))). Qed.

Lemma units_sub_ext (a a' b b' : Counter key) :
  Counter_wf a → Counter_wf a' → Counter_wf b → Counter_wf b' →
  same_counts a a' → same_counts b b' →
  (a.*1 = a'.*1 → units (Counter_sub a b) = units (Counter_sub a' b'))
  ∧ units (Counter_sub a b) ≡ₚ units (Counter_sub a' b').
Proof.
  intros Ha Ha' Hb Hb' Haa Hbb. split.
  - intros Hkeys.
    rewrite (same_counts_same_items a a') by (done || apply Ha || apply Ha').
    rewrite !Counter_sub_pos_diff by (apply Ha' || by apply Counter_wf_nonneg).
    by rewrite (pos_diff_ext a' b b').
  - apply same_occurrences_perm. intros k. apply Nat2Z.inj.
    rewrite !unit_counts by done. by rewrite (Haa k), (Hbb k).
Qed.

(** C7, as the code has it. Two reconciliations of equal multisets emit the
    Open events in the same order when the two current snapshots hold their
    keys in the same order (whatever the order of the keys of the previous
    snapshots), and the Close events in the same order when the two previous
    snapshots do; in any case they emit the same events up to order. *)
Theorem emission_order_follows_insertion (A A' B B' : Counter key) :
  Counter_wf A → Counter_wf A' → Counter_wf B → Counter_wf B' →
  same_counts A A' → same_counts B B' →
  (B.*1 = B'.*1 → open_events A B = open_events A' B')
  ∧ (A.*1 = A'.*1 → close_events A B = close_events A' B')
  ∧ open_events A B ≡ₚ open_events A' B'
  ∧ close_events A B ≡ₚ close_events A' B'.
Proof.
  intros HA HA' HB HB' HAA HBB.
  destruct (units_sub_ext B B' A A') as [Ho Hop]; try done.
  destruct (units_sub_ext A A' B B') as [Hc Hcp]; try done.
  unfold open_events, close_events, open_units, close_units.
  split_and!.
  - intros Hk. by rewrite Ho.
  - intros Hk. by rewrite Hc.
  - by apply fmap_Permutation.
  - by apply fmap_Permutation.
Qed.

Lemma swapped_same_counts :
  same_counts (Counter_of [eurusd_buy_1; gbpusd_sell_2])
              (Counter_of [gbpusd_sell_2; eurusd_buy_1]).
Proof.
  intros k. unfold Counter_of, eurusd_buy_1, gbpusd_sell_2. simpl.
  repeat (case_decide; try congruence).
Qed.

Lemma emission_order_follows_insertion_witness :
  let A := Counter_of [eurusd_buy_1; gbpusd_sell_2] in
  let A' := Counter_of [gbpusd_sell_2; eurusd_buy_1] in
  let B := Counter_of [eurusd_buy_1; eurusd_buy_1; gbpusd_sell_2] in
  (B.*1 = B.*1 → open_events A B = open_events A' B)
  ∧ (A.*1 = A'.*1 → close_events A B = close_events A' B)
  ∧ open_events A B ≡ₚ open_events A' B
  ∧ close_events A B ≡ₚ close_events A' B.
Proof.
  apply (emission_order_follows_insertion
           (Counter_of [eurusd_buy_1; gbpusd_sell_2])
           (Counter_of [gbpusd_sell_2; eurusd_buy_1])
           (Counter_of [eurusd_buy_1; eurusd_buy_1; gbpusd_sell_2])
           (Counter_of [eurusd_buy_1; eurusd_buy_1; gbpusd_sell_2]));
    try apply Counter_of_wf.
  - exact swapped_same_counts.
  - intros k. reflexivity.
Defined.

(** C7 as stated fails: the same multiset accumulated in two orders is
    emitted in two orders. *)
Lemma emission_order_depends_on_insertion :
  let B := Counter_of [eurusd_buy_1; gbpusd_sell_2] in
  let B' := Counter_of [gbpusd_sell_2; eurusd_buy_1] in
  same_counts B B'
  ∧ open_events [] B = [open_payload eurusd_buy_1; open_payload gbpusd_sell_2]
  ∧ open_events [] B' = [open_payload gbpusd_sell_2; open_payload eurusd_buy_1]
  ∧ open_events [] B ≠ open_events [] B'
  ∧ close_events B [] = [close_payload eurusd_buy_1; close_payload gbpusd_sell_2]
  ∧ close_events B' [] = [close_payload gbpusd_sell_2; close_payload eurusd_buy_1]
  ∧ close_events B [] ≠ close_events B' [].
Proof.
  split_and!; try (vm_compute; reflexivity); try (vm_compute; discriminate).
  exact swapped_same_counts.
Qed.

(** ** Characters *)

Lemma ascii_forall (P : ascii -> bool) :
  forallb P all_ascii = true → ∀ c, P c = true.
Proof.
  intros Hall c. rewrite forallb_forall in Hall. apply Hall.
  unfold all_ascii. apply in_map_iff. exists (nat_of_ascii c). split.
  - apply ascii_nat_embedding.
  - apply in_seq. pose proof (nat_ascii_bounded c). lia.
Qed.

Lemma ascii_forall2 (P : ascii -> ascii -> bool) :
  forallb (fun x => forallb (P x) all_ascii) all_ascii = true → ∀ x c, P x c = true.
Proof.
  intros Hall x c.
  apply (ascii_forall (P x)), (ascii_forall (fun x => forallb (P x) all_ascii) Hall).
Qed.

Lemma ascii_eqb_eq (a b : ascii) : ascii_eqb a b = true → a = b.
Proof.
  unfold ascii_eqb, code. intros Hab%Nat.eqb_eq.
  by rewrite <- (ascii_nat_embedding a), Hab, ascii_nat_embedding.
Qed.

(** Under [re.IGNORECASE] an upper-case letter of the pattern matches that
    letter in either case, and nothing else. *)
Lemma lit_ignorecase_upper (x c : ascii) :
  is_AZ x = true → lit_char true x c = true → upper_char c = x.
Proof.
  intros Hx Hc. apply ascii_eqb_eq.
  pose proof (ascii_forall2
    (fun x c => implb (is_AZ x && lit_char true x c) (ascii_eqb (upper_char c) x))) as Hall.
  specialize (Hall ltac:(vm_compute; reflexivity) x c). cbv beta in Hall.
  by rewrite Hx, Hc in Hall.
Qed.

(** No label letter, blank, [:] or [=] is a digit. *)
Lemma lit_not_digit (x c : ascii) :
  is_digit x = false → lit_char true x c = true → is_digit c = false.
Proof.
  intros Hx Hc.
  pose proof (ascii_forall2
    (fun x c => implb (negb (is_digit x) && lit_char true x c) (negb (is_digit c)))) as Hall.
  specialize (Hall ltac:(vm_compute; reflexivity) x c). cbv beta in Hall.
  rewrite Hx, Hc in Hall. simpl in Hall. by destruct (is_digit c).
Qed.

Lemma space_not_digit (c : ascii) : is_space c = true → is_digit c = false.
Proof.
  intros Hc.
  pose proof (ascii_forall (fun c => implb (is_space c) (negb (is_digit c)))
                ltac:(vm_compute; reflexivity) c) as Hall.
  cbv beta in Hall. rewrite Hc in Hall. simpl in Hall. by destruct (is_digit c).
Qed.

Lemma colon_eq_not_digit (c : ascii) : is_colon_eq c = true → is_digit c = false.
Proof.
  intros Hc.
  pose proof (ascii_forall (fun c => implb (is_colon_eq c) (negb (is_digit c)))
                ltac:(vm_compute; reflexivity) c) as Hall.
  cbv beta in Hall. rewrite Hc in Hall. simpl in Hall. by destruct (is_digit c).
Qed.

Lemma dot_not_digit (c : ascii) : is_dot c = true → is_digit c = false.
Proof.
  intros Hc.
  pose proof (ascii_forall (fun c => implb (is_dot c) (negb (is_digit c)))
                ltac:(vm_compute; reflexivity) c) as Hall.
  cbv beta in Hall. rewrite Hc in Hall. simpl in Hall. by destruct (is_digit c).
Qed.

(** ** The matcher *)

Section MatcherFacts.
Context {R : Type}.
Implicit Types (k : mstate -> option R).

Lemma m_rep_sound p lo hi pv s cp k x :
  m_rep p lo hi pv s cp k = Some x →
  ∃ w s' pv', s = w ++ s' ∧ Forall (fun c => p c = true) w
              ∧ (lo ≤ length w)%nat ∧ (∀ h, hi = Some h → (length w ≤ h)%nat)
              ∧ k (MS pv' s' cp) = Some x.
Proof.
  revert lo hi pv.
  assert (∀ lo hi pv s0,
    match lo with O => k (MS pv s0 cp) | S _ => None end = Some x →
    ∃ w s' pv', s0 = w ++ s' ∧ Forall (fun c => p c = true) w
                ∧ (lo ≤ length w)%nat ∧ (∀ h, hi = Some h → (length w ≤ h)%nat)
                ∧ k (MS pv' s' cp) = Some x) as Hstop.
  { intros [|lo] hi pv s0 Hk; [|done].
    exists [], s0, pv. split_and!; simpl; try done; lia. }
  induction s as [|c s IH]; intros lo hi pv; simpl.
  { apply Hstop. }
  destruct (p c && more_allowed hi) eqn:Hpc; [|apply Hstop].
  apply andb_prop in Hpc as [Hp Hhi].
  destruct (m_rep p (Nat.pred lo) (Nat.pred <$> hi) (Some c) s cp k) eqn:Hrec;
    [|apply Hstop].
  intros [= ->].
  destruct (IH _ _ _ Hrec) as (w & s' & pv' & -> & Hw & Hlo & Hh & Hk).
  exists (c :: w), s', pv'. split_and!; simpl; try done.
  - by constructor.
  - lia.
  - intros h ->. destruct h as [|h]; [done|].
    specialize (Hh h eq_refl). lia.
Qed.

Lemma m_sound r : ∀ st k x,
  m r st k = Some x → ∃ st', steps r st st' ∧ k st' = Some x.
Proof.
  induction r as [|p|r1 IH1 r2 IH2|r1 IH1 r2 IH2|p lo hi| |r IH]; intros st k x; simpl.
  - intros Hk. by exists st.
  - destruct st as [pv [|c s] cp]; simpl; [done|].
    destruct (p c) eqn:Hp; [|done]. intros Hk.
    exists (MS (Some c) s cp). split; [|done]. by exists c.
  - intros (mid & H1 & H2)%IH1. apply IH2 in H2 as (st' & H2 & Hk).
    exists st'. split; [|done]. by exists mid.
  - destruct (m r1 st k) eqn:H1.
    + intros [= ->]. apply IH1 in H1 as (st' & H1 & Hk).
      exists st'. split; [by left|done].
    + intros (st' & H2 & Hk)%IH2. exists st'. split; [by right|done].
  - intros (w & s' & pv' & Hs & Hw & Hlo & Hh & Hk)%m_rep_sound.
    exists (MS pv' s' (cap st)). split; [|done]. by exists w.
  - destruct (xorb _ _) eqn:Hb; [|done]. intros Hk. by exists st.
  - intros (mid & H1 & Hk)%IH. eexists. split; [|exact Hk]. by exists mid.
Qed.
End MatcherFacts.

Lemma steps_consumed r : ∀ st st', steps r st st' → ∃ w, rest st = w ++ rest st'.
Proof.
  induction r as [|p|r1 IH1 r2 IH2|r1 IH1 r2 IH2|p lo hi| |r IH]; intros st st'; simpl.
  - intros ->. by exists [].
  - intros (c & Hc & _). by exists [c].
  - intros (mid & (w1 & H1)%IH1 & (w2 & H2)%IH2).
    exists (w1 ++ w2). by rewrite H1, H2, app_assoc.
  - intros [H1|H2]; [by apply IH1|by apply IH2].
  - intros (w & Hw & _). by exists w.
  - intros [-> _]. by exists [].
  - intros (mid & (w & Hw)%IH & ->). by exists w.
Qed.

Lemma search_from_sound r : ∀ s pv mo,
  search_from r pv s = Some mo →
  ∃ pv' s', m r (MS pv' s' None) Some = Some mo.
Proof.
  induction s as [|c s IH]; intros pv mo; simpl.
  - destruct (m r (MS pv [] None) Some) eqn:Hm; [|done].
    intros [= ->]. by exists pv, [].
  - destruct (m r (MS pv (c :: s) None) Some) eqn:Hm.
    + intros [= ->]. by exists pv, (c :: s).
    + apply IH.
Qed.

Lemma re_search_steps r text mo :
  re_search r text = Some mo → ∃ st, cap st = None ∧ steps r st mo.
Proof.
  intros (pv & s & Hm)%search_from_sound.
  apply m_sound in Hm as (st' & Hsteps & [= ->]).
  by exists (MS pv s None).
Qed.

Lemma take_consumed (w s : str) : take (length (w ++ s) - length s) (w ++ s) = w.
Proof.
  rewrite length_app. replace (length w + length s - length s)%nat with (length w) by lia.
  by rewrite take_app_length.
Qed.

Lemma take_consumed_eq (w r s : str) :
  w ++ r = s → take (length s - length r) s = w.
Proof. intros <-. apply take_consumed. Qed.

Lemma steps_Lit ignorecase s : ∀ st st',
  steps (Lit ignorecase s) st st' →
  ∃ w, rest st = w ++ rest st'
       ∧ Forall2 (fun x c => lit_char ignorecase x c = true) s w
       ∧ cap st' = cap st.
Proof.
  induction s as [|x [|y s] IH]; intros st st'.
  - simpl. intros ->. exists []. by repeat split.
  - simpl. intros (c & Hr & Hc & Hcap). exists [c]. by repeat constructor.
  - change (Lit ignorecase (x :: y :: s))
      with (Seq (Chr (lit_char ignorecase x)) (Lit ignorecase (y :: s))).
    intros (mid & (c & Hr & Hc & Hcap) & (w & Hw & Hlit & Hcap')%IH).
    exists (c :: w). split_and!.
    + by rewrite Hr, Hw.
    + by constructor.
    + congruence.
Qed.

(** No letter of a pattern matches U+00DF. *)
Lemma lit_upper_chars (x c : ascii) :
  is_AZ x = true → lit_char true x c = true → upper_chars c = [upper_char c].
Proof.
  intros Hx Hc.
  pose proof (ascii_forall2
    (fun x c => implb (is_AZ x && lit_char true x c) (negb (code c =? 223)%nat))) as Hall.
  specialize (Hall ltac:(vm_compute; reflexivity) x c). cbv beta in Hall.
  rewrite Hx, Hc in Hall. unfold upper_chars.
  by destruct (code c =? 223)%nat.
Qed.

Lemma lit_ignorecase_upper_word (s w : str) :
  Forall (fun x => is_AZ x = true) s →
  Forall2 (fun x c => lit_char true x c = true) s w → upper w = s.
Proof.
  intros Hs Hlit. induction Hlit as [|x c s w Hc _ IH]; [done|].
  apply Forall_cons in Hs as [Hx Hs]. simpl.
  by rewrite (lit_upper_chars x c), (lit_ignorecase_upper x c), IH.
Qed.

Global Arguments Lit : simpl never.

(** What [SIDE_PATTERN] captures is [BUY] or [SELL], in some case. *)
Lemma SIDE_group text mo :
  re_search SIDE_PATTERN text = Some mo →
  upper (group1 mo) = txt "BUY" ∨ upper (group1 mo) = txt "SELL".
Proof.
  intros (st & Hcap & Hsteps)%re_search_steps.
  unfold SIDE_PATTERN, alternatives in Hsteps.
  cbn [steps fold_left map] in Hsteps.
  destruct Hsteps as (? & [-> _] & ? & (mid & Halt & ->) & -> & _).
  unfold group1. simpl.
  destruct Halt as [(w & Hw & Hlit & _)%steps_Lit|(w & Hw & Hlit & _)%steps_Lit];
    rewrite Hw, take_consumed; [left|right];
    apply lit_ignorecase_upper_word; try done;
    repeat constructor.
Qed.

Lemma lit_exact (s w : str) :
  Forall2 (fun x c => lit_char false x c = true) s w → w = s.
Proof.
  induction 1 as [|x c s w Hc _ IH]; [done|].
  apply ascii_eqb_eq in Hc. by subst.
Qed.

Lemma upper_AZ (g : str) : Forall (fun c => is_AZ c = true) g → upper g = g.
Proof.
  induction 1 as [|c g Hc _ IH]; simpl; [done|]. rewrite IH. f_equal.
  pose proof (ascii_forall
    (fun c => implb (is_AZ c) (negb (code c =? 223)%nat && ascii_eqb (upper_char c) c))
    ltac:(vm_compute; reflexivity) c) as Hall.
  cbv beta in Hall. rewrite Hc in Hall. simpl in Hall.
  apply andb_true_iff in Hall as [Hne Heq%ascii_eqb_eq].
  unfold upper_chars. destruct (code c =? 223)%nat; [done|]. by rewrite Heq.
Qed.

(** What [SYMBOL_PATTERN] captures is made of upper-case letters, so that
    the stored symbol is the captured text itself. *)
Lemma SYMBOL_group text mo :
  re_search SYMBOL_PATTERN text = Some mo →
  ∃ g, cap mo = Some g ∧ Forall (fun c => is_AZ c = true) g ∧ upper g = g.
Proof.
  intros (st & Hcap & Hsteps)%re_search_steps.
  unfold SYMBOL_PATTERN, Opt, alternatives, quote_currencies in Hsteps.
  cbn [steps fold_left map] in Hsteps.
  destruct Hsteps as (? & [-> _] & ? & (mid & Hgrp & ->) & -> & _).
  destruct Hgrp as (m1 & (w & Hw & HAZ & _) & Hsuffix).
  assert (∃ w', rest m1 = w' ++ rest mid ∧ Forall (fun c => is_AZ c = true) w')
    as (w' & Hw' & HAZ').
  { destruct Hsuffix as [Hlits| ->]; [|by exists []].
    repeat (destruct Hlits as [Hlits|Hlits]);
      apply steps_Lit in Hlits as (w' & Hw' & Hl%lit_exact & _);
      exists w'; (split; [done|]); subst w'; by repeat constructor. }
  exists (w ++ w'). cbn [cap].
  assert (Forall (fun c => is_AZ c = true) (w ++ w')) as Hall
    by (by apply Forall_app).
  split_and!; [|done|by apply upper_AZ].
  f_equal. apply take_consumed_eq. by rewrite Hw, Hw', app_assoc.
Qed.

(** ** The size pattern *)

Lemma take_drop_digits s : take_digits s ++ drop_digits s = s.
Proof.
  induction s as [|c s IH]; simpl; [done|].
  destruct (is_digit c); simpl; [by rewrite IH|done].
Qed.

Lemma first_number_skip (w r : str) :
  Forall (fun c => is_digit c = false) w → starts_with_digit r = true →
  first_number (w ++ r) = Some (leading_number r).
Proof.
  intros Hw Hr. induction Hw as [|c w Hc _ IH]; simpl.
  - destruct r as [|d r]; [done|]. simpl in *. by rewrite Hr.
  - by rewrite Hc.
Qed.

Section GreedyDigits.
Context {R : Type}.
Implicit Types (k : mstate -> option R).

(** A greedy run of digits takes them all when what follows accepts. *)
Lemma m_rep_digits_greedy k cp : ∀ s lo pv,
  (lo ≤ length (take_digits s))%nat →
  (∀ pv', is_Some (k (MS pv' (drop_digits s) cp))) →
  ∃ pv', m_rep is_digit lo None pv s cp k = k (MS pv' (drop_digits s) cp).
Proof.
  induction s as [|c s IH]; intros lo pv Hlo Hk; simpl in *.
  { exists pv. by replace lo with 0%nat by lia. }
  destruct (is_digit c) eqn:Hc; simpl in *.
  - destruct (IH (Nat.pred lo) (Some c)) as (pv' & Hrec); [lia|done|].
    exists pv'. rewrite Hrec. by destruct (Hk pv') as [x ->].
  - exists pv. by replace lo with 0%nat by lia.
Qed.

Lemma m_rep_digits_fail k cp lo pv s :
  starts_with_digit s = false → m_rep is_digit (S lo) None pv s cp k = None.
Proof. destruct s as [|c s]; simpl; [done|]. by intros ->. Qed.
End GreedyDigits.

(** The number group: at a digit it captures the longest number there,
    elsewhere it fails. *)
Lemma LOT_number_match pv s cp :
  starts_with_digit s = true →
  ∃ mo, m LOT_number (MS pv s cp) Some = Some mo
        ∧ cap mo = Some (leading_number s).
Proof.
  intros Hs. unfold LOT_number, Opt. cbn [m prev rest cap].
  match goal with |- ∃ mo, m_rep _ _ _ _ _ _ ?K = _ ∧ _ => set (k1 := K) end.
  assert (∀ st', is_Some (k1 st')) as Hk1.
  { intros st'. unfold k1.
    destruct (match rest st' with [] => _ | _ => _ end); eauto. }
  destruct (m_rep_digits_greedy k1 cp s 1 pv) as (pv' & ->).
  { destruct s as [|c s]; simpl in *; [done|]. rewrite Hs. simpl. lia. }
  { intros. apply Hk1. }
  unfold k1, leading_number. cbn [rest prev cap].
  pose proof (take_drop_digits s) as Hsplit.
  destruct (drop_digits s) as [|c s'] eqn:Hdrop.
  { eexists. split; [done|]. cbn [cap]. f_equal. by apply take_consumed_eq. }
  destruct (is_dot c) eqn:Hdot; cbn [andb];
    [destruct (starts_with_digit s') eqn:Hs'|].
  - destruct (m_rep_digits_greedy
                (fun st' => Some (MS (prev st') (rest st')
                   (Some (take (length s - length (rest st')) s))))
                cp s' 1 (Some c)) as (pv'' & ->).
    { destruct s' as [|d s']; simpl in *; [done|]. rewrite Hs'. simpl. lia. }
    { intros. eauto. }
    eexists. split; [done|]. cbn [cap rest]. f_equal.
    apply take_consumed_eq. rewrite <- app_assoc. simpl.
    by rewrite take_drop_digits.
  - rewrite m_rep_digits_fail by done.
    eexists. split; [done|]. cbn [cap]. f_equal. by apply take_consumed_eq.
  - eexists. split; [done|]. cbn [cap]. f_equal. by apply take_consumed_eq.
Qed.

Lemma LOT_number_fail {R} pv s cp (k : mstate -> option R) :
  starts_with_digit s = false → m LOT_number (MS pv s cp) k = None.
Proof.
  intros Hs. unfold LOT_number. cbn [m prev rest cap].
  by apply m_rep_digits_fail.
Qed.

Lemma lit_word_not_digit (s w : str) :
  Forall (fun x => is_digit x = false) s →
  Forall2 (fun x c => lit_char true x c = true) s w →
  Forall (fun c => is_digit c = false) w.
Proof.
  intros Hs Hlit. induction Hlit as [|x c s w Hc _ IH]; [constructor|].
  apply Forall_cons in Hs as [Hx Hs]. constructor; [|by apply IH].
  by apply (lit_not_digit x).
Qed.

(** Label, blanks and separator: whatever the prefix reads has no digit. *)
Lemma LOT_prefix_no_digit st st' :
  steps LOT_prefix st st' →
  ∃ w, rest st = w ++ rest st' ∧ Forall (fun c => is_digit c = false) w.
Proof.
  unfold LOT_prefix, LOT_label, Opt, alternatives.
  cbn [steps fold_left map].
  intros (m1 & Hlabel & m2 & (w2 & Hw2 & Hs2 & _) & m3 & Hsep & (w4 & Hw4 & Hs4 & _)).
  assert (∃ w1, rest st = w1 ++ rest m1 ∧ Forall (fun c => is_digit c = false) w1)
    as (w1 & Hw1 & Hd1).
  { destruct Hlabel as [[[Hl|Hl]|Hl]| ->]; [| | |by exists []];
      apply steps_Lit in Hl as (w & Hw & Hlit & _); exists w; (split; [done|]);
      (eapply lit_word_not_digit; [|exact Hlit]); by repeat constructor. }
  assert (∃ w3, rest m2 = w3 ++ rest m3 ∧ Forall (fun c => is_digit c = false) w3)
    as (w3 & Hw3 & Hd3).
  { destruct Hsep as [(c & Hc & Hce & _)| ->]; [|by exists []].
    exists [c]. split; [done|]. repeat constructor. by apply colon_eq_not_digit. }
  exists (w1 ++ w2 ++ w3 ++ w4). split.
  - rewrite Hw1, Hw2, Hw3, Hw4. by rewrite <- !app_assoc.
  - rewrite !Forall_app. split_and!; try done.
    + eapply Forall_impl; [exact Hs2|]. apply space_not_digit.
    + eapply Forall_impl; [exact Hs4|]. apply space_not_digit.
Qed.

(** At a digit the prefix reads nothing. *)
Lemma LOT_prefix_at_digit {R} pv s cp (k : mstate -> option R) :
  starts_with_digit s = true →
  m LOT_prefix (MS pv s cp) k = k (MS pv s cp).
Proof.
  intros Hs. destruct s as [|d s]; [done|]. simpl in Hs.
  assert (is_space d = false) as Hsp.
  { destruct (is_space d) eqn:E; [|done]. apply space_not_digit in E. congruence. }
  assert (is_colon_eq d = false) as Hce.
  { destruct (is_colon_eq d) eqn:E; [|done]. apply colon_eq_not_digit in E. congruence. }
  unfold LOT_prefix, LOT_label, Opt. cbn [m].
  match goal with |- match ?X with Some _ => _ | None => _ end = _ =>
    destruct X as [x|] eqn:Hlab end.
  - exfalso. apply m_sound in Hlab as (st' & Hsteps & _).
    unfold alternatives in Hsteps. cbn [steps fold_left map] in Hsteps.
    assert (∃ x w, rest (MS pv (d :: s) cp) = w ++ rest st'
                   ∧ Forall2 (fun x c => lit_char true x c = true) x w
                   ∧ Forall (fun c => is_digit c = false) x ∧ x ≠ [])
      as (x0 & w & Hw & Hlit & Hx & Hne).
    { destruct Hsteps as [[Hl|Hl]|Hl];
        apply steps_Lit in Hl as (w & Hw & Hlit & _);
        eexists _, w; (split_and!; [exact Hw|exact Hlit| |done]);
        by repeat constructor. }
    destruct Hlit as [|y c x1 w1 Hc _]; [done|].
    apply Forall_cons in Hx as [Hy _].
    simpl in Hw. injection Hw as -> _.
    apply (lit_not_digit y c) in Hc; congruence.
  - cbn [m m_rep prev rest cap]. rewrite Hsp. cbn [andb prev rest cap].
    rewrite Hce. cbn [m_rep]. by rewrite ?Hsp.
Qed.

Lemma LOT_match_group pv s mo :
  m LOT_PATTERN (MS pv s None) Some = Some mo →
  ∃ g, cap mo = Some g ∧ first_number s = Some g.
Proof.
  unfold LOT_PATTERN. cbn [m].
  intros (st' & Hpre & Hnum)%m_sound.
  apply LOT_prefix_no_digit in Hpre as (w & Hw & Hdig).
  destruct st' as [pv' s' cp']. cbn [rest] in Hw. subst s. cbv beta in Hnum.
  destruct (starts_with_digit s') eqn:Hs'.
  - destruct (LOT_number_match pv' s' cp' Hs') as (mo' & Hm & Hcap).
    rewrite Hm in Hnum. injection Hnum as ->.
    exists (leading_number s'). split; [done|]. by apply first_number_skip.
  - by rewrite LOT_number_fail in Hnum.
Qed.

Lemma LOT_match_at_digit pv s :
  starts_with_digit s = true → is_Some (m LOT_PATTERN (MS pv s None) Some).
Proof.
  intros Hs. unfold LOT_PATTERN. cbn [m].
  rewrite LOT_prefix_at_digit by done.
  destruct (LOT_number_match pv s None Hs) as (mo & -> & _). eauto.
Qed.

(** [LOT_PATTERN.search(text).group(1)] is the leftmost decimal of the
    text, and there is no match exactly when the text has no digit: the
    label takes no part in what is found. *)
Lemma LOT_search_from s : ∀ pv,
  group1 <$> search_from LOT_PATTERN pv s = first_number s.
Proof.
  induction s as [|c s IH]; intros pv; cbn [search_from].
  - destruct (m LOT_PATTERN (MS pv [] None) Some) as [mo|] eqn:Hm; [|done].
    by apply LOT_match_group in Hm as (g & _ & Hg).
  - destruct (m LOT_PATTERN (MS pv (c :: s) None) Some) as [mo|] eqn:Hm.
    + apply LOT_match_group in Hm as (g & Hcap & ->).
      simpl. unfold group1. by rewrite Hcap.
    + rewrite IH. simpl. destruct (is_digit c) eqn:Hc; [|done].
      destruct (LOT_match_at_digit pv (c :: s) Hc) as [mo Hmo]. congruence.
Qed.

Lemma LOT_search text :
  group1 <$> re_search LOT_PATTERN text = first_number text.
Proof. apply LOT_search_from. Qed.

Lemma LOT_group text mo :
  re_search LOT_PATTERN text = Some mo → ∃ g, cap mo = Some g.
Proof.
  intros (pv & s & Hm)%search_from_sound.
  apply LOT_match_group in Hm as (g & Hcap & _). by exists g.
Qed.




(** The size is a double: a decimal too small for one is [0.0] and gives no
    record, and two decimals that round to the same double are one key. *)
Example underflowing_size_is_dropped :
  float (txt "0." ++ replicate 330 "0"%char ++ txt "1") = 0%Q
  ∧ _extract_single_record
      (txt "EURUSD BUY 0." ++ replicate 330 "0"%char ++ txt "1") = None.
Proof. split; vm_compute; reflexivity. Qed.

Example equal_doubles_are_one_key :
  float (txt "0.1") = float (txt "0.1000000000000000001")
  ∧ _extract_positions_from_texts
      [txt "EURUSD BUY 0.1"; txt "EURUSD BUY 0.1000000000000000001"]
    = [mkPosition (txt "EURUSD") (txt "BUY") (float (txt "0.1"))].
Proof. split; vm_compute; reflexivity. Qed.

(** ** Fragments split over several UI nodes *)

(** C5, as the code has it. None of the three fragments [GBPUSD], [SELL],
    [lot: 2] gives a record on its own; they are the three tokens of the
    joined text, the window that starts at the first token gives
    [Position(GBPUSD, SELL, 2.0)], and that record is the first one of the
    extractor's result. *)
Theorem window_recovers_split_position :
  omap _extract_single_record split_fragments = []
  ∧ tokens_of split_fragments = split_fragments
  ∧ window_text (tokens_of split_fragments) 0 = txt "GBPUSD SELL lot: 2"
  ∧ _extract_single_record (window_text (tokens_of split_fragments) 0)
    = Some gbpusd_sell_2_position
  ∧ head (_extract_positions_from_texts split_fragments)
    = Some gbpusd_sell_2_position.
Proof. split_and!; vm_compute; reflexivity. Qed.

(** C5 as stated fails: the window that starts at [SELL] reads the side
    word as a symbol too, so the result holds a second record. *)
Lemma window_recovers_a_second_record :
  window_text (tokens_of split_fragments) 1 = txt "SELL lot: 2"
  ∧ _extract_positions_from_texts split_fragments
    = [gbpusd_sell_2_position; mkPosition (txt "SELL") (txt "SELL") 2]
  ∧ _extract_positions_from_texts split_fragments ≠ [gbpusd_sell_2_position].
Proof. split_and!; vm_compute; (reflexivity || discriminate). Qed.

(** ** The write path *)

Lemma evict_lookup now recent s ts :
  evict now recent !! s = Some ts
  ↔ recent !! s = Some ts ∧ (now - ts <= recent_ttl_seconds)%Q.
Proof.
  unfold evict. rewrite map_lookup_filter_Some. unfold fresh. simpl.
  by rewrite Qle_bool_iff.
Qed.

Lemma evict_lookup_None now recent s :
  recent !! s = None → evict now recent !! s = None.
Proof. intros Hs. unfold evict. apply map_lookup_filter_None. by left. Qed.

Section WritePath.
Variable float_repr : Q -> str.
Variable clock : nat -> Q.
Variable io : nat -> io_outcome.

Local Abbreviation write := (_write_signal float_repr clock io).
Local Abbreviation signature := (signature_of float_repr).
Local Abbreviation record := (compact float_repr).

(** The cache as the call that [st] is about to make sees it. *)
Local Abbreviation seen st := (evict (clock (calls st)) (recent_signals st)).

Lemma write_suppressed p st :
  is_Some (seen st !! signature p) →
  write p st
  = Returned (mkBridge (prev_positions st) (seen st) (tmp_file st)
                       (signal_file st) (published st) (S (calls st))).
Proof. intros Hin. unfold _write_signal. by rewrite bool_decide_eq_true_2. Qed.

Lemma write_published p st :
  seen st !! signature p = None → io (calls st) = IoOk →
  write p st
  = Returned (mkBridge (prev_positions st)
                       (<[signature p := clock (calls st)]> (seen st))
                       None (Some (record p)) (published st ++ [record p])
                       (S (calls st))).
Proof.
  intros Hout Hio. unfold _write_signal.
  rewrite bool_decide_eq_false_2, Hio; [done|].
  rewrite Hout. by intros [? ?].
Qed.

Lemma write_raises p st :
  seen st !! signature p = None → io (calls st) ≠ IoOk →
  ∃ tmp, write p st
         = Raised (mkBridge (prev_positions st) (seen st) tmp
                            (signal_file st) (published st) (S (calls st))).
Proof.
  intros Hout Hio. unfold _write_signal.
  rewrite bool_decide_eq_false_2 by (rewrite Hout; by intros [? ?]).
  destruct (io (calls st)); [done|eauto..].
Qed.

(** What any call leaves alone, and what it counts. *)
Lemma write_frame p st :
  prev_positions (state_of (write p st)) = prev_positions st
  ∧ calls (state_of (write p st)) = S (calls st)
  ∧ (published (state_of (write p st)) = published st
     ∨ published (state_of (write p st)) = published st ++ [record p]).
Proof.
  unfold _write_signal. case_bool_decide; [by auto|].
  destruct (io (calls st)); simpl; auto.
Qed.

Lemma for_each_write_frame ps : ∀ st,
  prev_positions (state_of (for_each ps write st)) = prev_positions st
  ∧ (calls (state_of (for_each ps write st)) ≤ calls st + length ps)%nat
  ∧ (∀ st', for_each ps write st = Returned st' →
            calls st' = (calls st + length ps)%nat)
  ∧ ∃ new, published (state_of (for_each ps write st)) = published st ++ new
           ∧ new `sublist_of` (record <$> ps).
Proof.
  induction ps as [|p ps IH]; intros st; simpl.
  { split_and!; [done|lia|by intros ? [= <-]; lia|].
    exists []. by rewrite app_nil_r. }
  unfold and_then.
  destruct (write_frame p st) as (Hprev & Hcalls & Hpub).
  destruct (write p st) as [st1|st1] eqn:Hw; simpl in *.
  - destruct (IH st1) as (Hprev' & Hle & Hret & new & Hnew & Hsub).
    split_and!.
    + congruence.
    + lia.
    + intros st' Hst'. rewrite (Hret st' Hst'). lia.
    + destruct Hpub as [Hpub|Hpub]; rewrite Hnew, Hpub.
      * exists new. split; [done|]. by apply sublist_cons.
      * exists (record p :: new). split; [by rewrite <- app_assoc|].
        by apply sublist_skip.
  - split_and!; [done|lia|done|].
    destruct Hpub as [Hpub|Hpub]; rewrite Hpub.
    + exists []. split; [by rewrite app_nil_r|apply sublist_nil_l].
    + exists [record p]. split; [done|]. apply sublist_skip, sublist_nil_l.
Qed.
(** A call leaves [signal.json] as it was or holds the whole compact
    record; what a failed write leaves behind is in [signal.tmp]. *)
Lemma write_signal_file p st :
  signal_file (state_of (write p st)) = signal_file st
  ∨ signal_file (state_of (write p st)) = Some (record p).
Proof.
  unfold _write_signal. case_bool_decide; [by left|].
  destruct (io (calls st)); simpl; auto.
Qed.

Lemma for_each_signal_file ps : ∀ st,
  signal_file (state_of (for_each ps write st)) = signal_file st
  ∨ ∃ p, p ∈ ps ∧ signal_file (state_of (for_each ps write st)) = Some (record p).
Proof.
  induction ps as [|p ps IH]; intros st; simpl; [by left|].
  unfold and_then.
  pose proof (write_signal_file p st) as Hp.
  destruct (write p st) as [st1|st1]; simpl in Hp.
  - destruct (IH st1) as [Heq|(q & Hq & Heq)].
    + rewrite Heq. destruct Hp as [Hp|Hp]; [by left|].
      right. exists p. split; [by left|done].
    + right. exists q. split; [by right|done].
  - simpl. destruct Hp as [Hp|Hp]; [by left|].
    right. exists p. split; [by left|done].
Qed.
End WritePath.

(** ** Debounce, failure and the stored snapshot *)

Section BridgeFacts.
Variable float_repr : Q -> str.
Variable clock : nat -> Q.
Variable io : nat -> io_outcome.

Local Abbreviation write := (_write_signal float_repr clock io).
Local Abbreviation signature := (signature_of float_repr).
Local Abbreviation record := (compact float_repr).
Local Abbreviation seen st := (evict (clock (calls st)) (recent_signals st)).

(** C2. A call first evicts the entries more than 5 seconds older than its
    own time; with the file operations succeeding it writes nothing exactly
    when the signature is in the pruned cache, and otherwise publishes and
    records the signature at its time.  Hence two identical events, the
    first of which is published: the second is suppressed when the calls
    are at most 5 seconds apart, and published again when they are further
    apart (6 seconds, say). *)
Theorem debounce_window (p : payload) (st : SignalBridge) :
  let t1 := clock (calls st) in
  let t2 := clock (S (calls st)) in
  io (calls st) = IoOk → io (S (calls st)) = IoOk →
  (∀ s ts, seen st !! s = Some ts
           ↔ recent_signals st !! s = Some ts ∧ (t1 - ts <= 5)%Q)
  ∧ (is_Some (seen st !! signature p) →
     write p st
     = Returned (mkBridge (prev_positions st) (seen st) (tmp_file st)
                          (signal_file st) (published st) (S (calls st))))
  ∧ (seen st !! signature p = None →
     write p st
     = Returned (mkBridge (prev_positions st) (<[signature p := t1]> (seen st))
                          None (Some (record p)) (published st ++ [record p])
                          (S (calls st)))
     ∧ ((t2 - t1 <= 5)%Q →
        published (state_of ((write p ;; write p)%action st))
        = published st ++ [record p])
     ∧ ((5 < t2 - t1)%Q →
        published (state_of ((write p ;; write p)%action st))
        = published st ++ [record p; record p])).
Proof.
  intros t1 t2 Hio1 Hio2. split_and!.
  - intros s ts. apply evict_lookup.
  - apply write_suppressed.
  - intros Hout.
    pose proof (write_published float_repr clock io p st Hout Hio1) as Hw.
    split_and!; [done| |]; intros Ht; unfold and_then; rewrite Hw.
    + rewrite write_suppressed; [done|]. cbn [calls recent_signals].
      exists t1. apply evict_lookup. split; [apply lookup_insert_eq|done].
    + rewrite write_published; cbn [calls recent_signals published state_of].
      * by rewrite <- app_assoc.
      * apply eq_None_not_Some. intros [ts Hin].
        apply evict_lookup in Hin as [Hts Hle].
        rewrite lookup_insert_eq in Hts. injection Hts as <-.
        exfalso. by apply (Qlt_not_le _ _ Ht).
      * done.
Qed.

(** C9. When the write to the temporary file or the replace raises, the
    call raises with the cache pruned and nothing else: the signature is not
    recorded, the published file is as before, and the same event offered
    again at the next call is published. *)
Theorem failed_publish_is_not_cached (p : payload) (st : SignalBridge) :
  seen st !! signature p = None →
  io (calls st) ≠ IoOk →
  io (S (calls st)) = IoOk →
  ∃ st1, write p st = Raised st1
         ∧ recent_signals st1 = seen st
         ∧ recent_signals st1 !! signature p = None
         ∧ signal_file st1 = signal_file st
         ∧ published st1 = published st
         ∧ write p st1
           = Returned (mkBridge (prev_positions st)
                        (<[signature p := clock (S (calls st))]> (seen st1))
                        None (Some (record p)) (published st ++ [record p])
                        (S (S (calls st)))).
Proof.
  intros Hout Hio1 Hio2.
  destruct (write_raises float_repr clock io p st Hout Hio1) as (tmp & Hw).
  eexists. split; [exact Hw|]. cbn [recent_signals signal_file published].
  split_and!; try done.
  rewrite write_published; cbn [calls recent_signals]; try done.
  by apply evict_lookup_None.
Qed.



End BridgeFacts.

(** ** What is published *)



Lemma extract_single_well_sided text r :
  _extract_single_record text = Some r → well_sided (position_key r).
Proof.
  unfold _extract_single_record.
  destruct (re_search SYMBOL_PATTERN (upper text)) as [sm|]; [|done].
  destruct (re_search SIDE_PATTERN (upper text)) as [dm|] eqn:Hside; [|done].
  destruct (re_search LOT_PATTERN text) as [lm|]; [|done].
  cbv zeta. destruct (Qle_bool (float (group1 lm)) 0) eqn:Hle; [done|].
  intros [= <-]. split; simpl.
  - by apply (SIDE_group (upper text)).
  - apply Qnot_le_lt. intros Hle'%Qle_bool_iff. congruence.
Qed.

Lemma unique_from_elem r : ∀ records seen,
  r ∈ unique_from seen records → r ∈ records.
Proof.
  induction records as [|r' rs IH]; intros seen; simpl; [done|].
  case_bool_decide.
  - intros Hin%IH. by right.
  - intros [->|Hin%IH]%elem_of_cons; [by left|by right].
Qed.

Lemma extract_positions_well_sided texts r :
  r ∈ _extract_positions_from_texts texts → well_sided (position_key r).
Proof.
  unfold _extract_positions_from_texts.
  intros [Hin|Hin]%unique_from_elem%elem_of_app;
    apply list_elem_of_omap in Hin as (x & _ & Hx);
    by apply extract_single_well_sided in Hx.
Qed.

Lemma read_live_positions_wf c current :
  _read_live_positions c = Some current →
  Counter_wf current ∧ Forall well_sided current.*1.
Proof.
  unfold _read_live_positions.
  destruct (ui_dump c) as [chunks|]; simpl; [|done].
  assert (∀ texts, Forall well_sided
            (Counter_of (position_key <$> _extract_positions_from_texts texts)).*1)
    as Hkeys.
  { intros texts. apply Forall_forall. intros k Hk%Counter_of_keys.
    apply list_elem_of_fmap in Hk as (r & -> & Hr).
    by apply (extract_positions_well_sided texts). }
  pose proof (Hkeys chunks) as Hchunks.
  destruct (_extract_positions_from_texts chunks) as [|r rs].
  - destruct (ocr_lines c) as [lines|]; simpl; [|done].
    intros [= <-]. split; [apply Counter_of_wf|apply Hkeys].
  - intros [= <-]. split; [apply Counter_of_wf|exact Hchunks].
Qed.

Section CycleFacts.
Variable float_repr : Q -> str.
Variable clock : nat -> Q.
Variable io : nat -> io_outcome.

Local Abbreviation write := (_write_signal float_repr clock io).
Local Abbreviation record := (compact float_repr).

Lemma emit_deltas_flat (current : Counter key) st :
  _emit_deltas float_repr clock io current st
  = (for_each (open_events (prev_positions st) current
               ++ close_events (prev_positions st) current) write ;;
     set_prev_positions current)%action st.
Proof.
  rewrite emit_deltas_events. unfold and_then at 1 2 3. rewrite for_each_app.
  unfold and_then. by destruct (for_each (open_events _ _) _ st).
Qed.

Lemma for_each_write_raised ps : ∀ st st',
  for_each ps write st = Raised st' → (calls st < calls st')%nat.
Proof.
  induction ps as [|p ps IH]; intros st st'; simpl; [done|].
  unfold and_then.
  pose proof (write_frame float_repr clock io p st) as (_ & Hc & _).
  destruct (write p st) as [st2|st2]; simpl in Hc.
  - intros Hrun%IH. lia.
  - intros [= <-]. lia.
Qed.

(** How a reconciliation ends: the snapshot is stored after the last
    event, or a call has raised and it is not. *)
Lemma emit_deltas_outcome (current : Counter key) (st : SignalBridge) :
  let events := open_events (prev_positions st) current
                ++ close_events (prev_positions st) current in
  match _emit_deltas float_repr clock io current st with
  | Returned st' =>
      prev_positions st' = current ∧ calls st' = (calls st + length events)%nat
  | Raised st' =>
      prev_positions st' = prev_positions st
      ∧ (calls st < calls st' ≤ calls st + length events)%nat
  end.
Proof.
  cbv zeta. rewrite emit_deltas_flat. unfold and_then.
  set (events := open_events (prev_positions st) current
                 ++ close_events (prev_positions st) current).
  destruct (for_each_write_frame float_repr clock io events st)
    as (Hprev & Hle & Hret & _).
  destruct (for_each events write st) as [st1|st1] eqn:Hrun; simpl in *.
  - split; [done|]. by apply Hret.
  - split; [done|]. split; [|done]. by apply (for_each_write_raised events).
Qed.

(** C3. The stored snapshot is replaced by the current one only after
    every event of the cycle has gone through the write path; when the
    capture raises the bridge is untouched, and when a publish raises on the
    way the stored snapshot is the one the cycle started with, so that any
    later snapshot is reconciled against it as it would have been. *)
Theorem previous_snapshot_is_replaced_last (c : capture) (st : SignalBridge) :
  match _read_live_positions c with
  | None => poll_cycle float_repr clock io c st = st
  | Some current =>
      let events := open_events (prev_positions st) current
                    ++ close_events (prev_positions st) current in
      match _emit_deltas float_repr clock io current st with
      | Returned st' =>
          poll_cycle float_repr clock io c st = st'
          ∧ prev_positions st' = current
          ∧ calls st' = (calls st + length events)%nat
      | Raised st' =>
          poll_cycle float_repr clock io c st = st'
          ∧ prev_positions st' = prev_positions st
          ∧ (calls st < calls st' ≤ calls st + length events)%nat
          ∧ ∀ next, open_events (prev_positions st') next
                    = open_events (prev_positions st) next
                    ∧ close_events (prev_positions st') next
                      = close_events (prev_positions st) next
      end
  end.
Proof.
  unfold poll_cycle.
  destruct (_read_live_positions c) as [current|]; [|done].
  pose proof (emit_deltas_outcome current st) as Hout. cbv zeta in *.
  destruct (_emit_deltas float_repr clock io current st) as [st'|st'];
    destruct Hout as [Hprev Hcalls]; simpl.
  - by split_and!.
  - repeat split; try done; try apply Hcalls; by rewrite Hprev.
Qed.


(** The stored snapshot stays a multiset from cycle to cycle. *)
Lemma poll_cycle_wf (c : capture) (st : SignalBridge) :
  Counter_wf (prev_positions st) →
  Counter_wf (prev_positions (poll_cycle float_repr clock io c st)).
Proof.
  intros Hwf. unfold poll_cycle.
  destruct (_read_live_positions c) as [current|] eqn:Hread; [|done].
  apply read_live_positions_wf in Hread as [Hcur _].
  pose proof (emit_deltas_outcome current st) as Hout. cbv zeta in Hout.
  destruct (_emit_deltas _ _ _ _ _) as [st'|st']; simpl;
    destruct Hout as [-> _]; done.
Qed.
End CycleFacts.

(** ** What the extractor hands to the reconciliation *)

Lemma unique_from_NoDup : ∀ records seen,
  NoDup (position_key <$> unique_from seen records)
  ∧ ∀ r, r ∈ unique_from seen records → position_key r ∉ seen.
Proof.
  induction records as [|r rs IH]; intros seen; simpl.
  { split; [constructor|]. intros r Hr. by apply elem_of_nil in Hr. }
  case_bool_decide as Hseen; [apply IH|].
  destruct (IH (position_key r :: seen)) as [Hnd Hout].
  split.
  - csimpl. apply NoDup_cons. split; [|done].
    intros (r' & Heq & Hr')%list_elem_of_fmap.
    apply (Hout r' Hr'). rewrite <- Heq. by left.
  - intros r' [->|Hr']%elem_of_cons; [done|].
    intros Hin. apply (Hout r' Hr'). by right.
Qed.

Lemma Counter_of_acc_NoDup {K : Type} `{EqDecision K} (elems : list K) :
  ∀ acc : Counter K,
  NoDup elems → (∀ k, k ∈ elems → k ∉ acc.*1) →
  fold_left (fun c k => Counter_set k (Counter_get c k + 1) c) elems acc
  = acc ++ ((fun k => (k, 1%Z)) <$> elems).
Proof.
  induction elems as [|k elems IH]; intros acc Hnd Hout; simpl.
  { by rewrite app_nil_r. }
  apply NoDup_cons in Hnd as [Hk Hnd].
  rewrite Counter_get_absent, Counter_set_fresh by (apply Hout; by left).
  rewrite IH; [by rewrite <- app_assoc|done|].
  intros k' Hk'. rewrite fmap_app, elem_of_app. csimpl.
  rewrite list_elem_of_singleton. intros [Hacc| ->]; [|done].
  revert Hacc. apply Hout. by right.
Qed.

(** The extractor keeps one record per key, so every key of the snapshot
    that [_read_live_positions] returns counts once. *)
Lemma read_live_positions_counts c current :
  _read_live_positions c = Some current →
  Forall (fun kc => kc.2 = 1%Z) current.
Proof.
  unfold _read_live_positions.
  destruct (ui_dump c) as [chunks|]; simpl; [|done].
  assert (∀ texts, Forall (fun kc : key * Z => kc.2 = 1%Z)
            (Counter_of (position_key <$> _extract_positions_from_texts texts)))
    as Hones.
  { intros texts. unfold Counter_of, _extract_positions_from_texts.
    rewrite Counter_of_acc_NoDup.
    - simpl. apply Forall_fmap, Forall_forall. by intros k _.
    - apply unique_from_NoDup.
    - intros k _. apply not_elem_of_nil. }
  pose proof (Hones chunks) as Hchunks.
  destruct (_extract_positions_from_texts chunks) as [|r rs].
  - destruct (ocr_lines c) as [lines|]; simpl; [|done].
    intros [= <-]. apply Hones.
  - by intros [= <-].
Qed.

(** ** Sample runs *)

Lemma reconcile_unit_counts_witness :
  let A := Counter_of [eurusd_buy_1; eurusd_buy_1; gbpusd_sell_2] in
  let B := Counter_of [gbpusd_sell_2; gbpusd_sell_2; gbpusd_sell_2] in
  let st := mkBridge A ∅ None None [] 0 in
  Counter_wf A ∧ Counter_wf B
  ∧ occurrences (open_units A B) gbpusd_sell_2 = 2%nat
  ∧ occurrences (close_units A B) eurusd_buy_1 = 2%nat
  ∧ Z.of_nat (occurrences (open_units A B) gbpusd_sell_2)
    = Z.max 0 (Counter_get B gbpusd_sell_2 - Counter_get A gbpusd_sell_2).
Proof.
  split_and!; [apply Counter_of_wf|apply Counter_of_wf|reflexivity|reflexivity|].
  destruct (reconcile_unit_counts sample_repr (clock_by 1) io_ok
              (mkBridge (Counter_of [eurusd_buy_1; eurusd_buy_1; gbpusd_sell_2])
                        ∅ None None [] 0)
              (Counter_of [gbpusd_sell_2; gbpusd_sell_2; gbpusd_sell_2])
              gbpusd_sell_2) as (_ & Hopens & _);
    [apply Counter_of_wf|apply Counter_of_wf|exact Hopens].
Defined.

Lemma debounce_window_witness :
  io_ok 0 = IoOk ∧ io_ok 1 = IoOk
  ∧ published (state_of
      ((_write_signal sample_repr (clock_by 1) io_ok close_eurusd ;;
        _write_signal sample_repr (clock_by 1) io_ok close_eurusd)%action new_bridge))
    = [compact sample_repr close_eurusd]
  ∧ published (state_of
      ((_write_signal sample_repr (clock_by 6) io_ok close_eurusd ;;
        _write_signal sample_repr (clock_by 6) io_ok close_eurusd)%action new_bridge))
    = [compact sample_repr close_eurusd; compact sample_repr close_eurusd].
Proof.
  split_and!; [reflexivity|reflexivity| |].
  - apply (debounce_window sample_repr (clock_by 1) io_ok close_eurusd new_bridge);
      [reflexivity|reflexivity|reflexivity|].
    apply Qle_bool_iff. reflexivity.
  - apply (debounce_window sample_repr (clock_by 6) io_ok close_eurusd new_bridge);
      reflexivity.
Defined.

Lemma failed_publish_is_not_cached_witness :
  let st1 := state_of (_write_signal sample_repr (clock_by 1) io_first_replace_fails
                         close_eurusd new_bridge) in
  io_first_replace_fails 0 ≠ IoOk ∧ io_first_replace_fails 1 = IoOk
  ∧ recent_signals st1 !! signature_of sample_repr close_eurusd = None
  ∧ published st1 = []
  ∧ published (state_of (_write_signal sample_repr (clock_by 1) io_first_replace_fails
                           close_eurusd st1))
    = [compact sample_repr close_eurusd].
Proof.
  destruct (failed_publish_is_not_cached sample_repr (clock_by 1)
              io_first_replace_fails close_eurusd new_bridge)
    as (st1 & Hw & Hrec & Hsig & Hfile & Hpub & Hretry);
    [reflexivity|discriminate|reflexivity|].
  cbv zeta. rewrite Hw. cbn [state_of]. rewrite Hretry. cbn [state_of published].
  split_and!; [discriminate|reflexivity|exact Hsig|exact Hpub|reflexivity].
Defined.



(** The whole reconciliation of a key that grew by three: three calls, one
    record. *)
Example three_units_one_record :
  let st' := state_of (_emit_deltas sample_repr (clock_by 1) io_ok
                         (Counter_of [eurusd_buy_1; eurusd_buy_1; eurusd_buy_1])
                         new_bridge) in
  calls st' = 3%nat
  ∧ published st' = [compact sample_repr (open_payload eurusd_buy_1)]
  ∧ prev_positions st' = [(eurusd_buy_1, 3%Z)].
Proof. vm_compute. by split_and!. Qed.


(** The cycle of the last witness, run: one Open and one Close record. *)
Example open_then_close_records :
  published (poll_cycle sample_repr (clock_by 1) io_ok
               one_eurusd_capture holding_gbpusd)
  = [jtxt "{'action':'OPEN','symbol':'EURUSD','side':'BUY','lot':1.0}";
     jtxt "{'action':'CLOSE','symbol':'GBPUSD'}"].
Proof. vm_compute. reflexivity. Qed.

(** A cycle whose second publish fails: the first record is out, the stored
    snapshot is the old one, and the next cycle offers both events again. *)
Example failed_cycle_keeps_snapshot :
  let st' := poll_cycle sample_repr (clock_by 1) io_second_replace_fails
               one_eurusd_capture holding_gbpusd in
  published st' = [jtxt "{'action':'OPEN','symbol':'EURUSD','side':'BUY','lot':1.0}"]
  ∧ prev_positions st' = prev_positions holding_gbpusd
  ∧ calls st' = 2%nat
  ∧ open_events (prev_positions st') [(eurusd_buy_1, 1%Z)]
    = [open_payload eurusd_buy_1]
  ∧ close_events (prev_positions st') [(eurusd_buy_1, 1%Z)]
    = [close_payload gbpusd_sell_2].
Proof. vm_compute. by split_and!. Qed.

(** * Further properties of the code *)

(** ** Where a search matches *)

Lemma prev_after_cons pv c w : prev_after pv (c :: w) = prev_after (Some c) w.
Proof. done. Qed.

Lemma prev_after_app pv w1 w2 :
  prev_after pv (w1 ++ w2) = prev_after (prev_after pv w1) w2.
Proof.
  revert pv. induction w1 as [|c w1 IH]; intros pv; [done|].
  simpl. apply IH.
Qed.

Section MatcherPositions.
Context {R : Type}.
Implicit Types (k : mstate -> option R).

Lemma m_rep_sound_prev p k x cp : ∀ s lo hi pv,
  m_rep p lo hi pv s cp k = Some x →
  ∃ w s', s = w ++ s' ∧ Forall (fun c => p c = true) w
          ∧ (lo ≤ length w)%nat ∧ (∀ h, hi = Some h → (length w ≤ h)%nat)
          ∧ k (MS (prev_after pv w) s' cp) = Some x.
Proof.
  assert (∀ lo hi pv s0,
    match lo with O => k (MS pv s0 cp) | S _ => None end = Some x →
    ∃ w s', s0 = w ++ s' ∧ Forall (fun c => p c = true) w
            ∧ (lo ≤ length w)%nat ∧ (∀ h, hi = Some h → (length w ≤ h)%nat)
            ∧ k (MS (prev_after pv w) s' cp) = Some x) as Hstop.
  { intros [|lo] hi pv s0 Hk; [|done].
    exists [], s0. split_and!; simpl; try done; lia. }
  induction s as [|c s IH]; intros lo hi pv; simpl; [apply Hstop|].
  destruct (p c && more_allowed hi) eqn:Hpc; [|apply Hstop].
  apply andb_prop in Hpc as [Hp Hhi].
  destruct (m_rep p (Nat.pred lo) (Nat.pred <$> hi) (Some c) s cp k) eqn:Hrec;
    [|apply Hstop].
  intros [= ->].
  destruct (IH _ _ _ Hrec) as (w & s' & -> & Hw & Hlo & Hh & Hk).
  exists (c :: w), s'. split_and!; simpl; try done.
  - by constructor.
  - lia.
  - intros h ->. destruct h as [|h]; [done|].
    specialize (Hh h eq_refl). lia.
Qed.

(** A match leaves the matcher behind what it has read. *)
Lemma m_sound_prev r : ∀ st k x,
  m r st k = Some x →
  ∃ st' w, steps r st st' ∧ k st' = Some x
           ∧ rest st = w ++ rest st' ∧ prev st' = prev_after (prev st) w.
Proof.
  induction r as [|p|r1 IH1 r2 IH2|r1 IH1 r2 IH2|p lo hi| |r IH]; intros st k x; simpl.
  - intros Hk. by exists st, [].
  - destruct st as [pv [|c s] cp]; simpl; [done|].
    destruct (p c) eqn:Hp; [|done]. intros Hk.
    exists (MS (Some c) s cp), [c]. split_and!; try done. by exists c.
  - intros (mid & w1 & H1 & H2 & Hw1 & Hp1)%IH1.
    apply IH2 in H2 as (st' & w2 & H2 & Hk & Hw2 & Hp2).
    exists st', (w1 ++ w2). split_and!; [by exists mid|done| |].
    + by rewrite Hw1, Hw2, app_assoc.
    + by rewrite prev_after_app, <- Hp1.
  - destruct (m r1 st k) eqn:H1.
    + intros [= ->]. apply IH1 in H1 as (st' & w & H1 & Hk & Hw & Hp).
      exists st', w. split_and!; try done. by left.
    + intros (st' & w & H2 & Hk & Hw & Hp)%IH2.
      exists st', w. split_and!; try done. by right.
  - intros (w & s' & Hs & Hw & Hlo & Hh & Hk)%m_rep_sound_prev.
    exists (MS (prev_after (prev st) w) s' (cap st)), w.
    split_and!; try done. by exists w.
  - destruct (xorb _ _) eqn:Hb; [|done]. intros Hk. by exists st, [].
  - intros (mid & w & H1 & Hk & Hw & Hp)%IH.
    eexists _, w. split_and!; [by exists mid|exact Hk|done|done].
Qed.

(** A greedy run that can stop after [w] with what follows accepting
    does match, there or further on. *)
Lemma m_rep_is_Some p k cp s' : ∀ w lo hi pv,
  Forall (fun c => p c = true) w →
  (lo ≤ length w)%nat → (∀ h, hi = Some h → (length w ≤ h)%nat) →
  is_Some (k (MS (prev_after pv w) s' cp)) →
  is_Some (m_rep p lo hi pv (w ++ s') cp k).
Proof.
  induction w as [|c w IH]; intros lo hi pv Hw Hlo Hhi Hk.
  - simpl in *. replace lo with 0%nat by lia.
    destruct s' as [|c s']; simpl; [done|].
    destruct (p c && more_allowed hi); [|done].
    by destruct (m_rep p _ _ _ _ _ _).
  - apply Forall_cons in Hw as [Hc Hw]. simpl. rewrite Hc.
    assert (more_allowed hi = true) as ->.
    { destruct hi as [[|h]|]; try done. specialize (Hhi 0%nat eq_refl). simpl in Hhi. lia. }
    simpl.
    destruct (IH (Nat.pred lo) (Nat.pred <$> hi) (Some c)) as [x ->]; try done.
    + simpl in Hlo. lia.
    + intros h Hh. destruct hi as [h'|]; [|done]. injection Hh as <-.
      specialize (Hhi h' eq_refl). simpl in Hhi. lia.
Qed.
End MatcherPositions.

(** [search] tries every position of the text, so a match anywhere makes
    it succeed; and what it returns is a match at some position. *)
Lemma search_from_complete r : ∀ w pv s',
  is_Some (m r (MS (prev_after pv w) s' None) Some) →
  is_Some (search_from r pv (w ++ s')).
Proof.
  induction w as [|c w IH]; intros pv s' Hm.
  - simpl in *. destruct s' as [|c s']; simpl; by destruct Hm as [mo ->].
  - simpl. destruct (m r (MS pv (c :: w ++ s') None) Some); [done|].
    by apply (IH (Some c)).
Qed.

Lemma search_from_position r : ∀ s pv mo,
  search_from r pv s = Some mo →
  ∃ w s', s = w ++ s' ∧ m r (MS (prev_after pv w) s' None) Some = Some mo.
Proof.
  induction s as [|c s IH]; intros pv mo; simpl.
  - destruct (m r (MS pv [] None) Some) eqn:Hm; [|done].
    intros [= ->]. by exists [], [].
  - destruct (m r (MS pv (c :: s) None) Some) eqn:Hm.
    + intros [= ->]. by exists [], (c :: s).
    + intros (w & s' & -> & Hmo)%IH. by exists (c :: w), s'.
Qed.

(** ** Symbol, side and size of a record *)

Lemma upper_char_idemp (c : ascii) : upper_char (upper_char c) = upper_char c.
Proof.
  apply ascii_eqb_eq.
  apply (ascii_forall (fun c => ascii_eqb (upper_char (upper_char c)) (upper_char c))).
  vm_compute. reflexivity.
Qed.

Lemma upper_fixed (text : str) : Forall (fun c => upper_char c = c) (upper text).
Proof.
  induction text as [|c text IH]; simpl; [constructor|].
  apply Forall_app. split; [|done]. unfold upper_chars.
  destruct (code c =? 223)%nat.
  - by repeat constructor.
  - repeat constructor. apply upper_char_idemp.
Qed.

(** In upper-cased text a word that matches a pattern word in some case
    is the pattern word. *)
Lemma lit_ignorecase_fixed (s w : str) :
  Forall (fun x => is_AZ x = true) s →
  Forall (fun c => upper_char c = c) w →
  Forall2 (fun x c => lit_char true x c = true) s w → w = s.
Proof.
  intros Hs Hw Hlit. induction Hlit as [|x c s w Hc _ IH]; [done|].
  apply Forall_cons in Hs as [Hx Hs]. apply Forall_cons in Hw as [Hfix Hw].
  by rewrite <- (lit_ignorecase_upper x c), Hfix, IH.
Qed.

Lemma side_match_gives_symbol (text : str) (dm : mstate) :
  re_search SIDE_PATTERN (upper text) = Some dm →
  is_Some (re_search SYMBOL_PATTERN (upper text)).
Proof.
  intros (w & s' & Htext & Hm)%search_from_position.
  apply m_sound_prev in Hm as (st' & wt & Hsteps & [= ->] & Hwt & Hprev).
  cbn [rest prev] in Hwt, Hprev.
  unfold SIDE_PATTERN, alternatives in Hsteps.
  cbn [steps fold_left map] in Hsteps.
  destruct Hsteps as (? & [-> Hstart] & ? & (mid & Halt & ->) & Hdm & Hend).
  subst dm. cbn [rest prev] in *.
  assert (∃ g, s' = g ++ rest mid
               ∧ (g = txt "BUY" ∨ g = txt "SELL")) as (g & Hg & Hword).
  { pose proof (upper_fixed text) as Hfix. rewrite Htext in Hfix.
    apply Forall_app in Hfix as [_ Hfix].
    destruct Halt as [(g & Hg & Hlit & _)%steps_Lit|(g & Hg & Hlit & _)%steps_Lit];
      cbn [rest] in Hg; exists g; (split; [done|]);
      rewrite Hg in Hfix; apply Forall_app in Hfix as [Hfix _]; [left|right];
      apply lit_ignorecase_fixed; try done; by repeat constructor. }
  assert (wt = g) as -> by (apply (app_inv_tail (rest mid)); congruence).
  assert (Forall (fun c => is_AZ c = true) g ∧ (3 ≤ length g ≤ 7)%nat
          ∧ word_before (MS (prev_after (prev_after None w) g) (rest mid) None) = true)
    as (HAZ & Hlen & Hbefore).
  { destruct Hword as [-> | ->]; split_and!; try (by repeat constructor);
      simpl; lia. }
  assert (word_after (MS (prev_after (prev_after None w) g) (rest mid) None) = false)
    as Hafter.
  { unfold word_before, word_after in *. cbn [prev rest] in *.
    rewrite Hprev in Hend. rewrite Hbefore in Hend.
    by destruct (match rest mid with [] => false | c :: _ => is_word c end). }
  unfold re_search. rewrite Htext. apply search_from_complete.
  unfold SYMBOL_PATTERN, Opt. cbn [m].
  replace (xorb (word_before (MS (prev_after None w) s' None))
                (word_after (MS (prev_after None w) s' None))) with true.
  cbn [prev rest cap]. rewrite Hg.
  apply m_rep_is_Some; try done; [lia|intros h [= <-]; lia|].
  destruct (m (alternatives false quote_currencies) _ _) as [x|]; [done|].
  cbn [m prev rest cap].
  replace (xorb _ _) with true; [done|].
  unfold word_before, word_after in *. cbn [prev rest] in *.
  by rewrite Hbefore, Hafter.
Qed.

(** X1. A side word is itself a word of the symbol grammar: whenever the
    side pattern matches the upper-cased text, the symbol pattern matches it
    too, so the symbol test of [_extract_single_record] never rejects a text
    that has a side. *)
Theorem side_word_is_a_symbol (text : str) (dm : mstate) :
  re_search SIDE_PATTERN (upper text) = Some dm →
  is_Some (re_search SYMBOL_PATTERN (upper text)).
Proof. apply side_match_gives_symbol. Qed.

Lemma side_word_is_a_symbol_witness :
  group1 <$> re_search SIDE_PATTERN (upper (txt "sell 0.5")) = Some (txt "SELL")
  ∧ is_Some (re_search SYMBOL_PATTERN (upper (txt "sell 0.5"))).
Proof.
  destruct (re_search SIDE_PATTERN (upper (txt "sell 0.5"))) as [dm|] eqn:Hside;
    [|vm_compute in Hside; discriminate].
  split; [|exact (side_word_is_a_symbol (txt "sell 0.5") dm Hside)].
  vm_compute in Hside. by injection Hside as <-.
Defined.

(** X2. A fragment gives a record exactly when it holds a side word and
    the double of its leftmost decimal is positive: the symbol test never
    decides, since the side word itself passes it. *)
Theorem record_iff_side_and_size (text : str) :
  is_Some (_extract_single_record text)
  ↔ is_Some (re_search SIDE_PATTERN (upper text))
    ∧ ∃ num, first_number text = Some num ∧ (0 < float num)%Q.
Proof.
  unfold _extract_single_record.
  pose proof (LOT_search text) as Hlot.
  split.
  - destruct (re_search SYMBOL_PATTERN (upper text)) as [sm|]; [|by intros [? ?]].
    destruct (re_search SIDE_PATTERN (upper text)) as [dm|]; [|by intros [? ?]].
    destruct (re_search LOT_PATTERN text) as [lm|]; [|by intros [? ?]].
    simpl in Hlot. cbv zeta.
    destruct (Qle_bool (float (group1 lm)) 0) eqn:Hle; [by intros [? ?]|].
    intros _. split; [done|]. exists (group1 lm). split; [done|].
    apply Qnot_le_lt. intros Hle'%Qle_bool_iff. congruence.
  - intros [[dm Hside] (num & Hnum & Hpos)].
    destruct (side_match_gives_symbol text dm Hside) as [sm Hsym].
    rewrite Hsym, Hside. rewrite Hnum in Hlot.
    destruct (re_search LOT_PATTERN text) as [lm|]; simpl in Hlot; [|done].
    injection Hlot as <-.
    destruct (Qle_bool (float (group1 lm)) 0) eqn:Hle; [|done].
    apply Qle_bool_iff in Hle. exfalso. by apply (Qlt_not_le _ _ Hpos).
Qed.

(** ** The units of a tick *)

Lemma units_of_ones (c : Counter key) :
  Forall (fun kc => kc.2 = 1%Z) c → units c = c.*1.
Proof.
  induction 1 as [|[k n] c Hn _ IH]; [done|].
  simpl in Hn. subst n. unfold units in *. simpl. by rewrite IH.
Qed.

Lemma pos_diff_ones (a b : Counter key) :
  Forall (fun kc => kc.2 = 1%Z) a → Forall (fun kc => (0 <= kc.2)%Z) b →
  Forall (fun kc => kc.2 = 1%Z) (pos_diff a b).
Proof.
  intros Ha Hb. induction Ha as [|[k n] a Hn _ IH]; [constructor|].
  simpl in Hn. subst n. unfold pos_diff in *. csimpl.
  pose proof (Counter_get_nonneg b k Hb) as Hk.
  destruct (0 <? 1 - Counter_get b k)%Z eqn:Hpos; [|done].
  apply Z.ltb_lt in Hpos. constructor; [simpl; lia|done].
Qed.

(** X3. In a tick every key of the captured snapshot counts once, so the
    difference to the stored snapshot counts every key once and no Open
    event is handed to the write path twice: the repeated units of
    [_emit_deltas] do not arise through [run]. *)
Theorem tick_opens_each_key_once (c : capture) (current : Counter key) (st : SignalBridge) :
  Counter_wf (prev_positions st) →
  _read_live_positions c = Some current →
  Forall (fun kc => kc.2 = 1%Z) (Counter_sub current (prev_positions st))
  ∧ open_units (prev_positions st) current
    = (Counter_sub current (prev_positions st)).*1
  ∧ NoDup (open_events (prev_positions st) current).
Proof.
  intros Hprev Hread.
  pose proof (read_live_positions_counts c current Hread) as Hones.
  apply read_live_positions_wf in Hread as [[Hnd _] _].
  pose proof (Counter_wf_nonneg _ Hprev) as Hnn.
  assert (Forall (fun kc => kc.2 = 1%Z) (Counter_sub current (prev_positions st)))
    as Hsub by (rewrite Counter_sub_pos_diff by done; by apply pos_diff_ones).
  split_and!; [done|by apply units_of_ones|].
  unfold open_events, open_units. rewrite units_of_ones by done.
  rewrite Counter_sub_pos_diff by done.
  apply NoDup_fmap_2; [|by apply pos_diff_NoDup].
  intros [[s1 d1] l1] [[s2 d2] l2]. simpl. congruence.
Qed.

Lemma tick_opens_each_key_once_witness :
  Counter_wf (prev_positions holding_gbpusd)
  ∧ _read_live_positions one_eurusd_capture = Some [(eurusd_buy_1, 1%Z)]
  ∧ open_units (prev_positions holding_gbpusd) [(eurusd_buy_1, 1%Z)]
    = (Counter_sub [(eurusd_buy_1, 1%Z)] (prev_positions holding_gbpusd)).*1.
Proof.
  split_and!; [apply Counter_of_wf|vm_compute; reflexivity|].
  destruct (tick_opens_each_key_once one_eurusd_capture [(eurusd_buy_1, 1%Z)]
              holding_gbpusd) as (_ & Hunits & _);
    [apply Counter_of_wf|vm_compute; reflexivity|exact Hunits].
Defined.

(** ** The signal file and the debounce cache *)

Section FurtherCycleFacts.
Variable float_repr : Q -> str.
Variable clock : nat -> Q.
Variable io : nat -> io_outcome.

Local Abbreviation write := (_write_signal float_repr clock io).
Local Abbreviation record := (compact float_repr).

(** X4. Whatever a cycle does, and wherever it stops, [signal.json] is
    afterwards what it was before or the whole compact record of one of
    the cycle's events: a partial write never reaches it. *)
Theorem signal_file_holds_whole_records (c : capture) (st : SignalBridge) :
  signal_file (poll_cycle float_repr clock io c st) = signal_file st
  ∨ ∃ current p,
      _read_live_positions c = Some current
      ∧ p ∈ open_events (prev_positions st) current
            ++ close_events (prev_positions st) current
      ∧ signal_file (poll_cycle float_repr clock io c st) = Some (record p).
Proof.
  unfold poll_cycle.
  destruct (_read_live_positions c) as [current|]; [|by left].
  rewrite emit_deltas_flat. unfold and_then.
  destruct (for_each_signal_file float_repr clock io
              (open_events (prev_positions st) current
               ++ close_events (prev_positions st) current) st)
    as [Heq|(p & Hp & Heq)].
  - left. by destruct (for_each _ write st).
  - right. exists current, p. split_and!; [done..|].
    by destruct (for_each _ write st).
Qed.

(** X5. After any call of [_write_signal], returned or raised, the
    debounce cache holds only entries that are within the window at the
    time the call read: older ones are gone, and the one a publish adds
    carries that time. *)
Theorem cache_holds_fresh_entries (p : payload) (st : SignalBridge) (sig : str) (ts : Q) :
  recent_signals (state_of (write p st)) !! sig = Some ts →
  (clock (calls st) - ts <= recent_ttl_seconds)%Q
  ∧ (recent_signals st !! sig = Some ts
     ∨ sig = signature_of float_repr p ∧ ts = clock (calls st)).
Proof.
  unfold _write_signal. case_bool_decide as Hin.
  { simpl. intros [Hold Hfresh]%evict_lookup. split; [done|by left]. }
  destruct (io (calls st)); simpl;
    try (intros [Hold Hfresh]%evict_lookup; split; [done|by left]).
  intros [[<- <-]|[_ [Hold Hfresh]%evict_lookup]]%lookup_insert_Some.
  - split; [|by right]. unfold recent_ttl_seconds, Qminus, Qle. simpl. lia.
  - split; [done|by left].
Qed.
End FurtherCycleFacts.

Lemma cache_holds_fresh_entries_witness :
  recent_signals
    (state_of (_write_signal sample_repr (clock_by 1) io_ok close_eurusd
                 stale_cache_bridge))
    !! signature_of sample_repr close_eurusd = Some 7%Q
  ∧ recent_signals
      (state_of (_write_signal sample_repr (clock_by 1) io_ok close_eurusd
                   stale_cache_bridge))
      !! txt "old" = None
  ∧ (clock_by 1 (calls stale_cache_bridge) - 7 <= recent_ttl_seconds)%Q.
Proof.
  assert (recent_signals
            (state_of (_write_signal sample_repr (clock_by 1) io_ok close_eurusd
                         stale_cache_bridge))
          !! signature_of sample_repr close_eurusd = Some 7%Q) as Hin
    by (vm_compute; reflexivity).
  split_and!; [exact Hin|vm_compute; reflexivity|].
  exact (proj1 (cache_holds_fresh_entries sample_repr (clock_by 1) io_ok
                  close_eurusd stale_cache_bridge _ _ Hin)).
Defined.
